(** * Total reCrawl: the crawl engine and its extractors

    A shallow embedding of [recrawl.py].  The file has four parts:

    - [Re]: the fragment of Python's [re] module the program relies on
      (pattern syntax, backtracking matcher, [findall], [match], [sub]);
    - [Extract]: [find_strings], [find_phone_numbers],
      [find_email_addresses];
    - [Crawler]: [fetch_html], [get_links] and [crawl], over an explicit
      program state (the global [visited_urls] and the effects performed)
      and an environment standing for the web and the libraries;
    - the properties of the crawl engine and of the extractors.

    Text is modelled as [string], one [ascii] per code point; the model
    therefore covers text whose code points lie below 256. *)

From Stdlib Require Import ZArith QArith Ascii String List Bool Lia.
From stdpp Require Import base gmap sets list strings.

Set Warnings "-clear-no-such-hyp".

Local Open Scope Z_scope.
Local Open Scope string_scope.
Local Open Scope list_scope.

(** ** Characters *)

Module Chars.

Definition code (c : ascii) : N := N_of_ascii c.

Definition between (lo hi : N) (c : ascii) : bool :=
  ((lo <=? code c) && (code c <=? hi))%N.

(** [\d]: the decimal digits; below 256 these are 0-9 only. *)
Definition is_digit (c : ascii) : bool := between 48 57 c.

(** [\s]: Unicode white space below 256. *)
Definition is_space (c : ascii) : bool :=
  between 9 13 c || between 28 32 c || (code c =? 133)%N || (code c =? 160)%N.

Definition is_ascii_upper (c : ascii) : bool := between 65 90 c.
Definition is_ascii_lower (c : ascii) : bool := between 97 122 c.
Definition is_ascii_letter (c : ascii) : bool :=
  is_ascii_upper c || is_ascii_lower c.

(** [\w]: alphanumeric (in the sense of [str.isalnum]) or underscore. *)
Definition is_word (c : ascii) : bool :=
  is_digit c || is_ascii_letter c || (code c =? 95)%N
  || (code c =? 170)%N || (code c =? 178)%N || (code c =? 179)%N
  || (code c =? 181)%N || (code c =? 185)%N || (code c =? 186)%N
  || between 188 190 c || between 192 214 c || between 216 246 c
  || between 248 255 c.

(** Simple case mappings, restricted to code points below 256. *)
Definition lower (c : ascii) : ascii :=
  if is_ascii_upper c || between 192 214 c || between 216 222 c
  then ascii_of_N (code c + 32) else c.

Definition upper (c : ascii) : ascii :=
  if is_ascii_lower c || between 224 246 c || between 248 254 c
  then ascii_of_N (code c - 32) else c.

Definition eqb (a b : ascii) : bool := (code a =? code b)%N.

Definition newline : ascii := ascii_of_N 10.

End Chars.

(** ** Regular expressions, after Python's [re] *)

Module Re.

Import Chars.

Inductive category := Digit | NotDigit | Space | NotSpace | Word | NotWord.

Inductive class_item :=
| CLit (c : ascii)
| CRange (lo hi : ascii)
| CCat (k : category).

Inductive anchor := AtBeginning | AtEnd | AtBoundary.

(** Parsed patterns.  [Group None r] is [(?:r)]; [Group (Some i) r] is the
    [i]-th capturing group.  [Repeat lo hi r] is the greedy repeat, [hi =
    None] standing for no upper bound. *)
#[warnings="-register-all"]
Inductive regex :=
| Literal (c : ascii)
| AnyChar
| In (negate : bool) (items : list class_item)
| At (a : anchor)
| Seq (rs : list regex)
| Branch (rs : list regex)
| Repeat (lo : nat) (hi : option nat) (r : regex)
| Group (idx : option nat) (r : regex).

Definition in_category (k : category) (c : ascii) : bool :=
  match k with
  | Digit => is_digit c
  | NotDigit => negb (is_digit c)
  | Space => is_space c
  | NotSpace => negb (is_space c)
  | Word => is_word c
  | NotWord => negb (is_word c)
  end.

(** Matching one character, with and without [re.IGNORECASE]. *)
Definition lit_matches (ignorecase : bool) (c ch : ascii) : bool :=
  if ignorecase then eqb (lower c) (lower ch) else eqb c ch.

Definition item_matches (ignorecase : bool) (it : class_item) (ch : ascii)
  : bool :=
  match it with
  | CLit c => lit_matches ignorecase c ch
  | CRange lo hi =>
      if ignorecase
      then between (code lo) (code hi) (lower ch)
           || between (code lo) (code hi) (upper (lower ch))
      else between (code lo) (code hi) ch
  | CCat k => in_category k ch
  end.

Definition set_matches (ignorecase negate : bool) (items : list class_item)
    (ch : ascii) : bool :=
  xorb negate (existsb (fun it => item_matches ignorecase it ch) items).

(** The state of one match attempt: the character before the current
    position (none at the start of the text), the text still ahead, and
    the groups captured so far. *)
Record mstate := MState {
  before : option ascii;
  ahead : list ascii;
  marks : list (option (list ascii))
}.

Definition is_word_opt (o : option ascii) : bool :=
  match o with Some c => is_word c | None => false end.

Definition anchor_holds (a : anchor) (st : mstate) : bool :=
  match a with
  | AtBeginning => match before st with None => true | Some _ => false end
  | AtEnd =>
      match ahead st with
      | [] => true
      | [c] => eqb c newline
      | _ => false
      end
  | AtBoundary =>
      match before st, ahead st with
      | None, [] => false
      | _, _ => xorb (is_word_opt (before st)) (is_word_opt (head (ahead st)))
      end
  end.

Definition step_char (p : ascii -> bool) (st : mstate) : option mstate :=
  match ahead st with
  | ch :: tl => if p ch then Some (MState (Some ch) tl (marks st)) else None
  | [] => None
  end.

(** The text consumed between two states of the same attempt. *)
Definition consumed (st st' : mstate) : list ascii :=
  take (length (ahead st) - length (ahead st')) (ahead st).

Definition set_mark (i : nat) (s : list ascii) (ms : list (option (list ascii)))
  : list (option (list ascii)) :=
  <[i := Some s]> (ms ++ replicate (S i - length ms) None).

Definition or_else {R} (a b : option R) : option R :=
  match a with Some x => Some x | None => b end.

Section Matcher.
Context {R : Type}.
Variable ignorecase : bool.

(** The backtracking matcher, in continuation-passing style: [k] is what
    remains to be matched after [r]; the first success in priority order
    wins. *)
Fixpoint run (r : regex) (st : mstate) (k : mstate -> option R)
  {struct r} : option R :=
  match r with
  | Literal c =>
      match step_char (lit_matches ignorecase c) st with
      | Some st' => k st'
      | None => None
      end
  | AnyChar =>
      match step_char (fun ch => negb (eqb ch newline)) st with
      | Some st' => k st'
      | None => None
      end
  | In negate items =>
      match step_char (set_matches ignorecase negate items) st with
      | Some st' => k st'
      | None => None
      end
  | At a => if anchor_holds a st then k st else None
  | Seq rs =>
      (fix seq (rs : list regex) (st : mstate) (k : mstate -> option R)
         : option R :=
         match rs with
         | [] => k st
         | r1 :: rs' => run r1 st (fun st' => seq rs' st' k)
         end) rs st k
  | Branch rs =>
      (fix alt (rs : list regex) : option R :=
         match rs with
         | [] => None
         | r1 :: rs' => or_else (run r1 st k) (alt rs')
         end) rs
  | Group None r1 => run r1 st k
  | Group (Some i) r1 =>
      run r1 st (fun st' =>
        k (MState (before st') (ahead st')
             (set_mark i (consumed st st') (marks st'))))
  | Repeat lo hi r1 =>
      (* the iterations beyond [lo]: one more is tried while the bound
         allows it and the previous one moved forward *)
      let optional :=
        fix optional (n : nat) (left : option nat) (st : mstate)
          : option R :=
          match left with
          | Some O => k st
          | _ =>
              or_else
                (run r1 st (fun st' =>
                   match n with
                   | S n' =>
                       if (length (ahead st') <? length (ahead st))%nat
                       then optional n' (pred <$> left) st'
                       else k st'
                   | O => k st'
                   end))
                (k st)
          end in
      (fix mandatory (c : nat) (st : mstate) : option R :=
         match c with
         | O => optional (length (ahead st))
                  ((fun h => h - lo)%nat <$> hi) st
         | S c' => run r1 st (fun st' => mandatory c' st')
         end) lo st
  end.
End Matcher.

(** *** Scanning: [findall], [match], [sub] *)

(** One attempt at the current position.  With [must_advance] an empty
    match is refused (and the matcher backtracks into a longer one): this is
    how the scan avoids reporting the same empty match twice. *)
Definition attempt (ignorecase : bool) (r : regex) (must_advance : bool)
    (st : mstate) : option mstate :=
  run ignorecase r st (fun st' =>
    if must_advance && (length (ahead st') =? length (ahead st))%nat
    then None else Some st').

Inductive piece :=
| Unmatched (c : ascii)
| Matched (whole : list ascii) (ms : list (option (list ascii))).

(** The matches that start at one position (at most an empty one followed by
    a non-empty one), and the length of the last of them. *)
Definition matches_at (ignorecase : bool) (r : regex) (st : mstate)
  : list piece * nat :=
  match attempt ignorecase r false st with
  | None => ([], O)
  | Some st1 =>
      match consumed st st1 with
      | [] =>
          match attempt ignorecase r true st with
          | None => ([Matched [] (marks st1)], O)
          | Some st2 =>
              ([Matched [] (marks st1);
                Matched (consumed st st2) (marks st2)],
               length (consumed st st2))
          end
      | w => ([Matched w (marks st1)], length w)
      end
  end.

(** The leftmost, non-overlapping matches of [r] in the text, with the
    characters between them.  [skip] counts the characters still covered
    by the previous match. *)
Fixpoint scan (ignorecase : bool) (r : regex) (prev : option ascii)
    (text : list ascii) (skip : nat) {struct text} : list piece :=
  match skip with
  | S k =>
      match text with
      | [] => []
      | c :: tl => scan ignorecase r (Some c) tl k
      end
  | O =>
      let '(ps, n) := matches_at ignorecase r (MState prev text []) in
      ps ++ match text with
            | [] => []
            | c :: tl =>
                match n with
                | O => Unmatched c :: scan ignorecase r (Some c) tl O
                | S k => scan ignorecase r (Some c) tl k
                end
            end
  end.

(** A compiled pattern: the parsed expression, its number of capturing
    groups and the [IGNORECASE] flag. *)
Record pattern := Pattern {
  rx : regex;
  ngroups : nat;
  icase : bool
}.

(** What [findall] yields per match: the match itself when the pattern has
    no group, the group when it has one, the tuple of groups otherwise. *)
Inductive found :=
| FStr (s : string)
| FTuple (l : list string).

Definition group_text (ms : list (option (list ascii))) (i : nat) : string :=
  match ms !! i with
  | Some (Some s) => string_of_list_ascii s
  | _ => EmptyString
  end.

Definition item_of (n : nat) (whole : list ascii)
    (ms : list (option (list ascii))) : found :=
  match n with
  | O => FStr (string_of_list_ascii whole)
  | S O => FStr (group_text ms 1)
  | _ => FTuple (map (group_text ms) (seq 1 n))
  end.

Definition findall (p : pattern) (text : string) : list found :=
  omap (fun pc => match pc with
                  | Matched w ms => Some (item_of (ngroups p) w ms)
                  | Unmatched _ => None
                  end)
       (scan (icase p) (rx p) None (list_ascii_of_string text) O).

(** [re.match]: one attempt at the start of the text; only whether it
    succeeds is used by the program. *)
Definition matches_prefix (p : pattern) (text : string) : bool :=
  match attempt (icase p) (rx p) false
          (MState None (list_ascii_of_string text) []) with
  | Some _ => true
  | None => false
  end.

(** [re.sub] with a replacement that holds no group reference. *)
Definition sub (p : pattern) (repl : string) (text : string) : string :=
  string_of_list_ascii
    (flat_map (fun pc => match pc with
                         | Matched _ _ => list_ascii_of_string repl
                         | Unmatched c => [c]
                         end)
       (scan (icase p) (rx p) None (list_ascii_of_string text) O)).

(** *** Pattern syntax

    [compile] follows the parser of [re] ([_parse_sub], [_parse],
    [_escape], [_class_escape]) on the syntax modelled here: literals, [.],
    character sets, groups [( )] and [(?: )], alternation, the greedy
    quantifiers, [^], [$], [\b] and the class escapes, plus the [VERBOSE]
    layout rules.  A pattern [re] rejects is [ReError]; syntax that lies
    outside the model (look-around, back-references, lazy and possessive
    quantifiers, numeric and named escapes, ...) is [Unmodelled]. *)

Inductive parsed (A : Type) :=
| Parsed (a : A)
| ReError
| Unmodelled.
Arguments Parsed {A} a.
Arguments ReError {A}.
Arguments Unmodelled {A}.

Definition is_char (s : string) (c : ascii) : bool :=
  match s with
  | String d EmptyString => eqb c d
  | _ => false
  end.

Definition one_of (s : string) (c : ascii) : bool :=
  existsb (eqb c) (list_ascii_of_string s).

(** [ESCAPES]: the control characters that have a letter escape. *)
Definition control_escape (c : ascii) : option ascii :=
  if is_char "a" c then Some (ascii_of_N 7)
  else if is_char "b" c then Some (ascii_of_N 8)
  else if is_char "f" c then Some (ascii_of_N 12)
  else if is_char "n" c then Some (ascii_of_N 10)
  else if is_char "r" c then Some (ascii_of_N 13)
  else if is_char "t" c then Some (ascii_of_N 9)
  else if is_char "v" c then Some (ascii_of_N 11)
  else if is_char "\" c then Some c
  else None.

Definition category_escape (c : ascii) : option category :=
  if is_char "d" c then Some Digit
  else if is_char "D" c then Some NotDigit
  else if is_char "s" c then Some Space
  else if is_char "S" c then Some NotSpace
  else if is_char "w" c then Some Word
  else if is_char "W" c then Some NotWord
  else None.

(** Escapes whose value is numeric or named: outside the model. *)
Definition numeric_escape (c : ascii) : bool :=
  one_of "xuUN" c || is_digit c.

(** [_class_escape]: an escape inside a character set. *)
Definition class_escape (c : ascii) : parsed class_item :=
  match control_escape c with
  | Some l => Parsed (CLit l)
  | None =>
      match category_escape c with
      | Some k => Parsed (CCat k)
      | None =>
          if numeric_escape c then Unmodelled
          else if is_ascii_letter c then ReError
          else Parsed (CLit c)
      end
  end.

(** [_escape]: an escape outside a character set. *)
Definition escape (c : ascii) : parsed regex :=
  match category_escape c with
  | Some k => Parsed (In false [CCat k])
  | None =>
      if is_char "b" c then Parsed (At AtBoundary)
      else if one_of "ABZ" c then Unmodelled
      else match control_escape c with
           | Some l => Parsed (Literal l)
           | None =>
               if numeric_escape c then Unmodelled
               else if is_ascii_letter c then ReError
               else Parsed (Literal c)
           end
  end.

(** One member of a character set: a character or an escape. *)
Definition class_member (src : list ascii)
  : parsed (class_item * list ascii) :=
  match src with
  | [] => ReError
  | c :: tl =>
      if is_char "\" c then
        match tl with
        | [] => ReError
        | e :: tl' =>
            match class_escape e with
            | Parsed it => Parsed (it, tl')
            | ReError => ReError
            | Unmodelled => Unmodelled
            end
        end
      else Parsed (CLit c, tl)
  end.

(** The members of a character set up to the closing bracket; [items] are
    the members read so far (a bracket that comes first is a member). *)
Fixpoint class_body (fuel : nat) (src : list ascii) (items : list class_item)
  : parsed (list class_item * list ascii) :=
  match fuel with
  | O => Unmodelled
  | S fuel' =>
      match src with
      | [] => ReError
      | c :: tl =>
          if is_char "]" c && negb (bool_decide (items = []))
          then Parsed (items, tl)
          else
            match class_member src with
            | Parsed (code1, rest) =>
                match rest with
                | d :: rest1 =>
                    if is_char "-" d then
                      match rest1 with
                      | [] => ReError
                      | e :: rest2 =>
                          if is_char "]" e
                          then Parsed (items ++ [code1; CLit d], rest2)
                          else
                            match class_member rest1 with
                            | Parsed (code2, rest3) =>
                                match code1, code2 with
                                | CLit lo, CLit hi =>
                                    if (code hi <? code lo)%N then ReError
                                    else class_body fuel' rest3
                                           (items ++ [CRange lo hi])
                                | _, _ => ReError
                                end
                            | ReError => ReError
                            | Unmodelled => Unmodelled
                            end
                      end
                    else class_body fuel' rest (items ++ [code1])
                | [] => class_body fuel' rest (items ++ [code1])
                end
            | ReError => ReError
            | Unmodelled => Unmodelled
            end
      end
  end.

Definition parse_class (src : list ascii) : parsed (regex * list ascii) :=
  let '(negate, body) :=
    match src with
    | c :: tl => if is_char "^" c then (true, tl) else (false, src)
    | [] => (false, src)
    end in
  match class_body (S (length body)) body [] with
  | Parsed (items, rest) => Parsed (In negate items, rest)
  | ReError => ReError
  | Unmodelled => Unmodelled
  end.

(** Decimal digits at the head of the source. *)
Fixpoint digits (src : list ascii) : list ascii * list ascii :=
  match src with
  | c :: tl =>
      if is_digit c then let '(ds, rest) := digits tl in (c :: ds, rest)
      else ([], src)
  | [] => ([], [])
  end.

Definition number (ds : list ascii) : N :=
  fold_left (fun n d => (10 * n + (code d - 48))%N) ds 0%N.

(** [MAXREPEAT]: a repetition count at or above it overflows. *)
Definition maxrepeat : N := 4294967295.

(** The bounds written after an opening brace, when they are well formed:
    [Some (Parsed (lo, hi, rest))]; [None] when the brace is a literal. *)
Definition braces (src : list ascii)
  : option (parsed (nat * option nat * list ascii)) :=
  let '(lo, rest1) := digits src in
  let '(hi, rest2) :=
    match rest1 with
    | c :: tl => if is_char "," c then digits tl else (lo, rest1)
    | [] => (lo, rest1)
    end in
  match rest2 with
  | c :: rest3 =>
      if is_char "}" c then
        Some (if (maxrepeat <=? number lo)%N || (maxrepeat <=? number hi)%N
              then Unmodelled
              else
                match hi with
                | [] => Parsed (N.to_nat (number lo), None, rest3)
                | _ =>
                    if (number hi <? number lo)%N then ReError
                    else Parsed (N.to_nat (number lo),
                                 Some (N.to_nat (number hi)), rest3)
                end)
      else None
  | [] => None
  end.

(** A quantifier applies to the item read last. *)
Definition quantify (lo : nat) (hi : option nat) (items : list regex)
    (rest : list ascii) : parsed (list regex) :=
  match items with
  | [] => ReError
  | At _ :: _ => ReError
  | Repeat _ _ _ :: _ => ReError
  | item :: items' =>
      match rest with
      | c :: _ =>
          if one_of "?+" c then Unmodelled
          else Parsed (Repeat lo hi item :: items')
      | [] => Parsed (Repeat lo hi item :: items')
      end
  end.

(** A [VERBOSE] comment runs to the end of the line; it is read token by
    token, so an escaped newline does not end it. *)
Fixpoint skip_comment (src : list ascii) : parsed (list ascii) :=
  match src with
  | c :: tl =>
      if eqb c newline then Parsed tl
      else if is_char "\" c then
        match tl with
        | [] => ReError
        | _ :: tl' => skip_comment tl'
        end
      else skip_comment tl
  | [] => Parsed []
  end.

Definition is_layout (c : ascii) : bool :=
  between 9 13 c || (code c =? 32)%N.

Definition close (alts items : list regex) : regex :=
  match alts with
  | [] => Seq (rev items)
  | _ => Branch (alts ++ [Seq (rev items)])
  end.

(** [_parse_sub] and [_parse] in one loop: [alts] are the alternatives
    completed at this level, [items] the items of the current one (last
    first), [g] the number of groups opened so far.  The result stops at
    the closing parenthesis of the enclosing group, or at the end. *)
Fixpoint parse (fuel : nat) (verbose : bool) (src : list ascii) (g : nat)
    (alts items : list regex) : parsed (regex * list ascii * nat) :=
  match fuel with
  | O => Unmodelled
  | S fuel' =>
      let continue rest g items := parse fuel' verbose rest g alts items in
      let repeat lo hi rest :=
        match quantify lo hi items rest with
        | Parsed items' => continue rest g items'
        | ReError => ReError
        | Unmodelled => Unmodelled
        end in
      let group idx body g1 :=
        match parse fuel' verbose body g1 [] [] with
        | Parsed (r, c :: rest, g2) =>
            (* the inner loop stops at a closing parenthesis only *)
            continue rest g2 (Group idx r :: items)
        | Parsed (_, [], _) => ReError
        | ReError => ReError
        | Unmodelled => Unmodelled
        end in
      match src with
      | [] => Parsed (close alts items, [], g)
      | c :: tl =>
          if is_char ")" c then Parsed (close alts items, src, g)
          else if is_char "|" c
          then parse fuel' verbose tl g (alts ++ [Seq (rev items)]) []
          else if verbose && is_layout c then continue tl g items
          else if verbose && is_char "#" c then
            match skip_comment tl with
            | Parsed rest => continue rest g items
            | ReError => ReError
            | Unmodelled => Unmodelled
            end
          else if is_char "\" c then
            match tl with
            | [] => ReError
            | e :: tl' =>
                match escape e with
                | Parsed r => continue tl' g (r :: items)
                | ReError => ReError
                | Unmodelled => Unmodelled
                end
            end
          else if is_char "[" c then
            match parse_class tl with
            | Parsed (r, rest) => continue rest g (r :: items)
            | ReError => ReError
            | Unmodelled => Unmodelled
            end
          else if is_char "?" c then repeat 0%nat (Some 1%nat) tl
          else if is_char "*" c then repeat 0%nat None tl
          else if is_char "+" c then repeat 1%nat None tl
          else if is_char "{" c then
            match tl with
            | d :: _ =>
                if is_char "}" d then continue tl g (Literal c :: items)
                else
                  match braces tl with
                  | Some (Parsed (lo, hi, rest)) => repeat lo hi rest
                  | Some ReError => ReError
                  | Some Unmodelled => Unmodelled
                  | None => continue tl g (Literal c :: items)
                  end
            | [] => continue tl g (Literal c :: items)
            end
          else if is_char "." c then continue tl g (AnyChar :: items)
          else if is_char "(" c then
            match tl with
            | q :: tl' =>
                if is_char "?" q then
                  match tl' with
                  | o :: body =>
                      if is_char ":" o then group None body g
                      else Unmodelled
                  | [] => ReError
                  end
                else group (Some (S g)) tl (S g)
            | [] => ReError
            end
          else if is_char "^" c then continue tl g (At AtBeginning :: items)
          else if is_char "$" c then continue tl g (At AtEnd :: items)
          else continue tl g (Literal c :: items)
      end
  end.

Record flags := Flags { ignorecase : bool; verbose : bool }.

(** [re.compile]: a source left over after the outermost level is an
    unbalanced closing parenthesis. *)
Definition compile (f : flags) (pat : string) : parsed pattern :=
  let src := list_ascii_of_string pat in
  match parse (S (length src)) (verbose f) src O [] [] with
  | Parsed (r, [], g) => Parsed (Pattern r g (ignorecase f))
  | Parsed (_, _ :: _, _) => ReError
  | ReError => ReError
  | Unmodelled => Unmodelled
  end.

(** What [\D] compiles to. *)
Definition nondigit : regex := Seq [In false [CCat NotDigit]].

(** An item of [findall] that is a string rather than a tuple. *)
Definition is_str (m : found) : Prop :=
  match m with FStr _ => True | FTuple _ => False end.

End Re.

(** ** Python values and effects shared by the program's functions *)

Module Py.

Inductive exn :=
| re_error       (* re.error: the pattern does not compile *)
| ValueError.    (* raised by urllib.parse and by time.sleep *)

(** The result of a call: a value, an exception, or a behaviour of the
    libraries that lies outside what is modelled here. *)
Inductive result (A : Type) :=
| Value (a : A)
| Raises (e : exn)
| OutsideModel.
Arguments Value {A} a.
Arguments Raises {A} e.
Arguments OutsideModel {A}.

#[export] Instance result_bind : MBind result := fun A B f r =>
  match r with
  | Value a => f a
  | Raises e => Raises e
  | OutsideModel => OutsideModel
  end.

Definition of_parsed {A} (p : Re.parsed A) : result A :=
  match p with
  | Re.Parsed a => Value a
  | Re.ReError => Raises re_error
  | Re.Unmodelled => OutsideModel
  end.

(** The order in which a [set] of strings is iterated ([for x in s],
    [list(s)]): some enumeration of its elements, each once. *)
Record iteration := Iteration {
  order :> gset string -> list string;
  order_perm : forall X : gset string, order X ≡ₚ elements X
}.

Definition sorted_iteration : iteration :=
  Iteration elements (fun X => reflexivity (elements X)).

(** The same enumeration read backwards: another order a [set] may be
    iterated in. *)
Definition reversed (o : iteration) : iteration :=
  Iteration (fun X => reverse (o X))
    (fun X => Permutation_trans (reverse_Permutation (o X)) (order_perm o X)).

End Py.

(** ** The extractors *)

Module Extract.

Import Py.

(** [find_strings]: [re.findall(search_string, html, re.IGNORECASE)]. *)
Definition find_strings (html search_string : string)
  : result (list Re.found) :=
  p ← of_parsed (Re.compile (Re.Flags true false) search_string);
  Value (Re.findall p html).

(** The pattern of [find_phone_numbers], as written in the source. *)
Definition phone_pattern : string := "
        (\+?\d{1,3}[\s.-]?)?                # Optional country code
        (\(?\d{3}\)?[\s.-]?)?               # Optional area code with parentheses
        (\d{3}[\s.-]?\d{4}|\d{7}|\d{10,11}) # Main phone number
    ".

(** [''.join(match)] on what [findall] yields. *)
Definition join (m : Re.found) : string :=
  match m with
  | Re.FStr s => s
  | Re.FTuple l => fold_right String.append EmptyString l
  end.

(** [n in (10, 11)] *)
Definition phone_length (n : nat) : bool := (n =? 10)%nat || (n =? 11)%nat.

(** [len(re.sub(r'\D', '', number)) in (10, 11)] *)
Definition has_phone_length (number : string) : result bool :=
  p ← of_parsed (Re.compile (Re.Flags false false) "\D");
  Value (phone_length (String.length (Re.sub p "" number))).

Fixpoint add_valid_numbers (matches : list Re.found) (valid : gset string)
  : result (gset string) :=
  match matches with
  | [] => Value valid
  | m :: rest =>
      let phone_number := join m in
      ok ← has_phone_length phone_number;
      add_valid_numbers rest
        (if ok : bool then valid ∪ {[phone_number]} else valid)
  end.

(** The set [valid_numbers] at the end of [find_phone_numbers]. *)
Definition valid_numbers (html : string) : result (gset string) :=
  pattern ← of_parsed (Re.compile (Re.Flags false true) phone_pattern);
  let matches := Re.findall pattern html in
  add_valid_numbers matches ∅.

Definition email_pattern : string :=
  "\b[A-Za-z0-9._%+-]+@[A-Za-z0-9.-]+\.[A-Z|a-z]{2,}\b".

Definition email_validation : string :=
  "^[a-zA-Z0-9._%+-]+@[a-zA-Z0-9.-]+\.[a-zA-Z]{2,}$".

Fixpoint add_valid_emails (matches : list Re.found) (valid : gset string)
  : result (gset string) :=
  match matches with
  | [] => Value valid
  | Re.FStr email :: rest =>
      v ← of_parsed (Re.compile (Re.Flags false false) email_validation);
      add_valid_emails rest
        (if Re.matches_prefix v email then valid ∪ {[email]} else valid)
  | Re.FTuple _ :: _ =>
      (* not reached: the pattern has no group, every item is a string *)
      OutsideModel
  end.

(** The set [valid_emails] at the end of [find_email_addresses]. *)
Definition valid_emails (html : string) : result (gset string) :=
  pattern ← of_parsed (Re.compile (Re.Flags false false) email_pattern);
  let matches := Re.findall pattern html in
  add_valid_emails matches ∅.

Section Ordered.
(** [list(s)] enumerates the set in its iteration order. *)
Variable order : iteration.

Definition find_phone_numbers (html : string) : result (list string) :=
  numbers ← valid_numbers html;
  Value (order numbers).

Definition find_email_addresses (html : string) : result (list string) :=
  emails ← valid_emails html;
  Value (order emails).
End Ordered.

(** The digits of a string, the measure the phone filter is about. *)
Definition digit_count (s : string) : nat :=
  length (List.filter Chars.is_digit (list_ascii_of_string s)).

(** The compiled patterns of the two extractors. *)
Definition phone_compiled : Re.pattern :=
  Eval vm_compute in
    match Re.compile (Re.Flags false true) phone_pattern with
    | Re.Parsed p => p
    | _ => Re.Pattern (Re.Seq []) 0 false
    end.

Definition email_compiled : Re.pattern :=
  Eval vm_compute in
    match Re.compile (Re.Flags false false) email_pattern with
    | Re.Parsed p => p
    | _ => Re.Pattern (Re.Seq []) 0 false
    end.

Definition validation_compiled : Re.pattern :=
  Eval vm_compute in
    match Re.compile (Re.Flags false false) email_validation with
    | Re.Parsed p => p
    | _ => Re.Pattern (Re.Seq []) 0 false
    end.

End Extract.

(** ** The crawl engine *)

Module Crawler.

Import Py Extract.

(** What [requests.get] followed by [raise_for_status] yields. *)
Inductive response :=
| Body (text : string)
| RequestException (msg : string).

(** The world the crawler runs in: the web, and the libraries it calls
    ([BeautifulSoup], [urllib.parse], the iteration order of sets). *)
Record env := Env {
  requests_get : string -> response;
  (** [link['href']] for [link] in [soup.find_all('a', href=True)] *)
  anchor_hrefs : string -> list string;
  urljoin : string -> string -> result string;
  (** [urlparse(url).netloc] *)
  netloc : string -> result string;
  set_order : iteration
}.

(** The effects the program performs, in order. *)
Inductive event :=
| Crawling (url : string)
| Get (url : string)
| FailedToFetch (url msg : string)
| PhoneNumbers (url : string) (numbers : list string)
| EmailAddresses (url : string) (addresses : list string)
| Strings (url : string) (instances : list Re.found)
| Sleep (delay : Q).

(** The program state: the global [visited_urls] and the effects so far. *)
Record state := State {
  visited_urls : gset string;
  trace : list event
}.

Definition initial : state := State ∅ [].

Inductive status :=
| Returned
| Raised (e : exn)
| Unmodelled
| OutOfFuel.

Definition step := state -> status * state.

Definition ret : step := fun s => (Returned, s).

Definition and_then (a b : step) : step := fun s =>
  match a s with
  | (Returned, s') => b s'
  | stopped => stopped
  end.

Definition emit (e : event) : step := fun s =>
  (Returned, State (visited_urls s) (trace s ++ [e])).

Definition add_visited (url : string) : step := fun s =>
  (Returned, State (visited_urls s ∪ {[url]}) (trace s)).

Definition with_result {A} (r : result A) (k : A -> step) : step := fun s =>
  match r with
  | Value a => k a s
  | Raises e => (Raised e, s)
  | OutsideModel => (Unmodelled, s)
  end.

(** [time.sleep(delay)], which refuses a negative delay.  The delay is a
    rational number: what [time.sleep] does with a float that is no number,
    or with one too large for the clock (an OverflowError), is not
    modelled. *)
Definition sleep (delay : Q) : step :=
  if Qle_bool 0 delay then emit (Sleep delay)
  else fun s => (Raised ValueError, s).

Definition nonempty {A} (l : list A) : bool :=
  match l with [] => false | _ => true end.

Definition truthy (s : string) : bool :=
  match s with EmptyString => false | _ => true end.

Section World.
Variable E : env.

Definition fetch_html (url : string) (s : state) : string * state :=
  let s := State (visited_urls s) (trace s ++ [Get url]) in
  match requests_get E url with
  | Body text => (text, s)
  | RequestException e =>
      (EmptyString, State (visited_urls s) (trace s ++ [FailedToFetch url e]))
  end.

Fixpoint add_links (base_url base_domain : string) (follow_external : bool)
    (hrefs : list string) (links : gset string) : result (gset string) :=
  match hrefs with
  | [] => Value links
  | href :: rest =>
      full_url ← urljoin E base_url href;
      link_domain ← netloc E full_url;
      add_links base_url base_domain follow_external rest
        (if follow_external || bool_decide (link_domain = base_domain)
         then links ∪ {[full_url]} else links)
  end.

Definition get_links (html base_url : string) (follow_external : bool)
  : result (gset string) :=
  base_domain ← netloc E base_url;
  add_links base_url base_domain follow_external (anchor_hrefs E html) ∅.

(** Lines 149-155 of [crawl]. *)
Definition report_phone (url html : string) : step :=
  with_result (find_phone_numbers (set_order E) html) (fun phone_numbers =>
    if nonempty phone_numbers then
      with_result
        ((fix keep (l : list string) : result (list string) :=
            match l with
            | [] => Value []
            | number :: rest =>
                ok ← has_phone_length number;
                kept ← keep rest;
                Value (if ok : bool then number :: kept else kept)
            end) phone_numbers)
        (fun phone_numbers =>
           if nonempty phone_numbers
           then emit (PhoneNumbers url phone_numbers) else ret)
    else ret).

(** Lines 157-160. *)
Definition report_email (url html : string) : step :=
  with_result (find_email_addresses (set_order E) html)
    (fun email_addresses =>
       if nonempty email_addresses
       then emit (EmailAddresses url email_addresses) else ret).

(** Lines 162-165. *)
Definition report_strings (url html search_string : string) : step :=
  with_result (find_strings html search_string) (fun string_instances =>
    if nonempty string_instances
    then emit (Strings url string_instances) else ret).

Definition when (b : bool) (a : step) : step := if b then a else ret.

(** Lines 149-165: the extractors that are switched on, in order. *)
Definition extract (url html : string) (phone email : bool)
    (search_string : option string) : step :=
  and_then (when phone (report_phone url html))
 (and_then (when email (report_email url html))
    (match search_string with
     | Some pat => when (truthy pat) (report_strings url html pat)
     | None => ret
     end)).

(** Lines 168-170: the loop over the links, [visit] being the recursive
    call. *)
Fixpoint for_each_link (delay : Q) (visit : string -> step)
    (todo : list string) : step :=
  match todo with
  | [] => ret
  | link :: rest =>
      and_then (sleep delay)
     (and_then (visit link) (for_each_link delay visit rest))
  end.

(** [crawl]; [fuel] bounds the depth of the recursion. *)
Fixpoint crawl (fuel : nat) (url base_url : string) (depth : Z)
    (follow_external : bool) (delay : Q) (phone email : bool)
    (search_string : option string) (s : state) : status * state :=
  match fuel with
  | O => (OutOfFuel, s)
  | S fuel' =>
      if (depth =? 0)%Z || bool_decide (url ∈ visited_urls s)
      then (Returned, s)
      else
        let '(_, s) := and_then (emit (Crawling url)) (add_visited url) s in
        let '(html, s) := fetch_html url s in
        if negb (truthy html) then (Returned, s)
        else
          and_then (extract url html phone email search_string)
            (with_result (get_links html base_url follow_external)
               (fun links =>
                  for_each_link delay
                    (fun link =>
                       crawl fuel' link base_url (depth - 1)
                         follow_external delay phone email None)
                    (set_order E links))) s
  end.

(** The program's entry point, from a fresh process. *)
Definition main (fuel : nat) (starting_url : string)
    (search_string : option string) (depth : Z) (follow_external : bool)
    (delay : Q) (phone email : bool) : status * state :=
  crawl fuel starting_url starting_url depth follow_external delay
    phone email search_string initial.

(** *** Notions the properties are stated with *)

(** The link graph of a run: [w] lies [k] link-hops from [u] through
    pages that are served and through the links the resolver keeps. *)
Inductive hops (base_url : string) (follow_external : bool)
  : nat -> string -> string -> Prop :=
| hops_here (u : string) : hops base_url follow_external O u u
| hops_next (k : nat) (u v w html : string) (links : gset string) :
    requests_get E u = Body html ->
    truthy html = true ->
    get_links html base_url follow_external = Value links ->
    v ∈ links ->
    hops base_url follow_external k v w ->
    hops base_url follow_external (S k) u w.
End World.

(** The state in which a task that is not skipped requests its page:
    lines 142-143 have run. *)
Definition entered (url : string) (s : state) : state :=
  State (visited_urls s ∪ {[url]}) (trace s ++ [Crawling url]).

(** The URLs requested, in order. *)
Definition fetched (t : list event) : list string :=
  omap (fun e => match e with Get u => Some u | _ => None end) t.

(** What it takes for [u] to be among the links the resolver keeps from
    the references [hrefs]. *)
Definition kept (E : env) (base_url base_domain : string)
    (follow_external : bool) (hrefs : list string) (u : string) : Prop :=
  exists href d : string,
    href ∈ hrefs /\ urljoin E base_url href = Value u /\
    netloc E u = Value d /\
    (follow_external = true \/ d = base_domain).

(** A step that requests nothing and leaves [visited_urls] alone. *)
Definition quiet (a : step) : Prop :=
  forall s, exists t,
    snd (a s) = State (visited_urls s) (trace s ++ t) /\ fetched t = [].

(** From [s] to [s'] the trace is extended, [visited_urls] only grows, and
    every URL requested in between is requested once, was not visited
    before, is visited afterwards and satisfies [good]. *)
Definition grows (good : string -> Prop) (s s' : state) : Prop :=
  exists t,
    trace s' = trace s ++ t /\
    visited_urls s ⊆ visited_urls s' /\
    NoDup (fetched t) /\
    forall u, u ∈ fetched t ->
      (u ∉ visited_urls s) /\ (u ∈ visited_urls s') /\ good u.

Definition sound (good : string -> Prop) (a : step) : Prop :=
  forall s, grows good s (snd (a s)).

(** A step that does not run out of fuel. *)
Definition finishes (a : step) : Prop :=
  forall s, fst (a s) <> OutOfFuel.

(** A step all of whose effects satisfy [P]. *)
Definition emits (P : event -> Prop) (a : step) : Prop :=
  forall s, exists t, trace (snd (a s)) = trace s ++ t /\ Forall P t.

(** Not a report of the custom extractor. *)
Definition not_strings (e : event) : Prop :=
  match e with Strings _ _ => False | _ => True end.

(** A report of the custom extractor, if it is one, is about [url]. *)
Definition strings_about (url : string) (e : event) : Prop :=
  match e with Strings u _ => u = url | _ => True end.

(** What the depth limit promises of a URL requested by a task for [url]
    with [depth] hops left. *)
Definition within (E : env) (base_url : string) (follow_external : bool)
    (url : string) (depth : Z) (u : string) : Prop :=
  0 <= depth ->
  exists k : nat,
    Z.of_nat k < depth /\ hops E base_url follow_external k url u.

(** *** Notions of the further properties *)

(** [u] has the host of [base_url]. *)
Definition same_host (E : env) (base_url u : string) : Prop :=
  exists d : string, netloc E u = Value d /\ netloc E base_url = Value d.

(** A step after which [visited_urls] holds what it held plus the URLs
    requested meanwhile, and nothing else. *)
Definition tallies (a : step) : Prop :=
  forall s, exists t,
    trace (snd (a s)) = trace s ++ t /\
    visited_urls (snd (a s)) = visited_urls s ∪ list_to_set (fetched t).

(** In [t], read after the event [prev], every task that is entered comes
    right after a [Sleep delay]. *)
Fixpoint polite (delay : Q) (prev : option event) (t : list event) : Prop :=
  match t with
  | [] => True
  | e :: t' =>
      (forall u, e = Crawling u -> prev = Some (Sleep delay)) /\
      polite delay (Some e) t'
  end.

Definition last_event (prev : option event) (t : list event) : option event :=
  match last t with Some e => Some e | None => prev end.

(** A step whose effects are polite wherever they are read. *)
Definition paced (delay : Q) (a : step) : Prop :=
  forall s, exists t,
    trace (snd (a s)) = trace s ++ t /\ forall prev, polite delay prev t.

(** A step whose effects are polite when read after a [Sleep delay]. *)
Definition after_sleep (delay : Q) (a : step) : Prop :=
  forall s, exists t,
    trace (snd (a s)) = trace s ++ t /\
    polite delay (Some (Sleep delay)) t.

(** A set of URLs that holds the links of each of its pages. *)
Definition closed (E : env) (base_url : string) (follow_external : bool)
    (site : gset string) : Prop :=
  forall (u html : string) (links : gset string),
    u ∈ site -> requests_get E u = Body html ->
    get_links E html base_url follow_external = Value links ->
    links ⊆ site.

(** From a state that holds [V] in [visited_urls] the step does not run
    out of fuel, and [V] is still visited afterwards. *)
Definition keeps (V : gset string) (a : step) : Prop :=
  forall s, V ⊆ visited_urls s ->
    fst (a s) <> OutOfFuel /\ V ⊆ visited_urls (snd (a s)).

(** The page a report is about. *)
Definition subject (e : event) : option string :=
  match e with
  | PhoneNumbers u _ | EmailAddresses u _ | Strings u _ => Some u
  | _ => None
  end.

(** The page requested last, [cur] being the one before [t]. *)
Definition current (cur : option string) (t : list event) : option string :=
  match last (fetched t) with Some u => Some u | None => cur end.

(** In [t], read with [cur] the page requested last, every report is about
    the page requested last before it. *)
Fixpoint attributed (cur : option string) (t : list event) : Prop :=
  match t with
  | [] => True
  | e :: t' =>
      (forall u, subject e = Some u -> cur = Some u) /\
      attributed (match e with Get u => Some u | _ => cur end) t'
  end.

(** A report that an extractor switched on has made of findings. *)
Definition wanted (phone email : bool) (e : event) : Prop :=
  match e with
  | PhoneNumbers _ l => phone = true /\ l <> []
  | EmailAddresses _ l => email = true /\ l <> []
  | Strings _ l => l <> []
  | _ => True
  end.

(** A step whose reports are attributed wherever its effects are read. *)
Definition placed (a : step) : Prop :=
  forall s, exists t,
    trace (snd (a s)) = trace s ++ t /\ forall cur, attributed cur t.

End Crawler.

(** ** A concrete world for the scenarios

    The properties of the crawl engine are stated for every environment.
    The scenarios need one: [Lib] transcribes [urllib.parse] for URLs made
    of a scheme, a host and a path (anything else is [OutsideModel]), and
    reads the anchors of pages written as text with [<a href='...'>]
    elements. *)

Module Lib.

Import Chars Py.

Fixpoint break_at (p : ascii -> bool) (l : list ascii)
  : list ascii * list ascii :=
  match l with
  | [] => ([], [])
  | c :: tl =>
      if p c then ([], l)
      else let '(a, b) := break_at p tl in (c :: a, b)
  end.

(** [s.split('/')] *)
Fixpoint split_slash (l : list ascii) : list (list ascii) :=
  match l with
  | [] => [[]]
  | c :: tl =>
      if Re.is_char "/" c then [] :: split_slash tl
      else match split_slash tl with
           | seg :: segs => (c :: seg) :: segs
           | [] => [[c]]
           end
  end.

(** ['/'.join(segments)] *)
Fixpoint join_slash (segs : list (list ascii)) : list ascii :=
  match segs with
  | [] => []
  | [seg] => seg
  | seg :: rest => seg ++ "/"%char :: join_slash rest
  end.

Definition scheme_char (c : ascii) : bool :=
  is_ascii_letter c || is_digit c || Re.one_of "+-." c.

(** Characters that bring in queries, fragments, parameters, bracketed
    hosts or the stripping of blanks: outside this transcription. *)
Definition plain_char (c : ascii) : bool :=
  negb (Re.one_of "?#;[]\" c) && between 33 126 c.

Record parts := Parts {
  scheme : list ascii;
  host : list ascii;
  path : list ascii
}.

(** [urlsplit(url, scheme)] *)
Definition urlsplit (url default : list ascii) : result parts :=
  if negb (forallb plain_char url) then OutsideModel
  else
    let '(pre, post) := break_at (Re.is_char ":") url in
    let with_scheme (sch rest : list ascii) : result parts :=
      match rest with
      | a :: b :: rest' =>
          if Re.is_char "/" a && Re.is_char "/" b
          then let '(h, p) := break_at (Re.is_char "/") rest' in
               Value (Parts sch h p)
          else Value (Parts sch [] rest)
      | _ => Value (Parts sch [] rest)
      end in
    match pre, post with
    | c :: _, _ :: rest =>
        if is_ascii_letter c && forallb scheme_char pre
        then if forallb is_digit rest then OutsideModel
             else with_scheme (map lower pre) rest
        else with_scheme default url
    | _, _ => with_scheme default url
    end.

(** [urlunsplit], for a scheme that uses a network location. *)
Definition urlunsplit (p : parts) : list ascii :=
  let url :=
    match path p with
    | c :: _ => if Re.is_char "/" c then path p else "/"%char :: path p
    | [] => []
    end in
  let url := "/"%char :: "/"%char :: host p ++ url in
  match scheme p with
  | [] => url
  | sch => sch ++ ":"%char :: url
  end.

Definition is_http (sch : list ascii) : bool :=
  bool_decide (sch = list_ascii_of_string "http")
  || bool_decide (sch = list_ascii_of_string "https").

(** [segments[1:-1] = filter(None, segments[1:-1])] *)
Definition drop_empty_inner (segments : list (list ascii))
  : list (list ascii) :=
  match segments with
  | first :: rest =>
      match rev rest with
      | last :: inner_rev =>
          first :: filter (fun seg => seg <> []) (rev inner_rev) ++ [last]
      | [] => segments
      end
  | [] => []
  end.

Definition resolve (segments : list (list ascii)) : list (list ascii) :=
  let dot := list_ascii_of_string "." in
  let dotdot := list_ascii_of_string ".." in
  let resolved_path :=
    fold_left (fun resolved seg =>
                 if bool_decide (seg = dotdot) then removelast resolved
                 else if bool_decide (seg = dot) then resolved
                 else resolved ++ [seg])
              segments [] in
  match last segments with
  | Some seg =>
      if bool_decide (seg = dot) || bool_decide (seg = dotdot)
      then resolved_path ++ [[]] else resolved_path
  | None => resolved_path
  end.

Definition urljoin_chars (base url : list ascii) : result (list ascii) :=
  match base, url with
  | [], _ => Value url
  | _, [] => Value base
  | _, _ =>
      b ← urlsplit base [];
      u ← urlsplit url (scheme b);
      if negb (bool_decide (scheme u = scheme b)) then Value url
      else if negb (is_http (scheme u)) then OutsideModel
      else
        match host u, path u with
        | _ :: _, _ => Value (urlunsplit u)
        | [], [] => Value (urlunsplit (Parts (scheme u) (host b) (path b)))
        | [], c :: _ =>
            let base_parts :=
              let bp := split_slash (path b) in
              match last bp with
              | Some [] => bp
              | _ => removelast bp
              end in
            let segments :=
              if Re.is_char "/" c then split_slash (path u)
              else drop_empty_inner (base_parts ++ split_slash (path u)) in
            let joined := join_slash (resolve segments) in
            Value (urlunsplit
                     (Parts (scheme u) (host b)
                        (match joined with
                         | [] => ["/"%char]
                         | _ => joined
                         end)))
        end
  end.

Definition urljoin (base url : string) : result string :=
  r ← urljoin_chars (list_ascii_of_string base) (list_ascii_of_string url);
  Value (string_of_list_ascii r).

(** [urlparse(url).netloc] *)
Definition netloc (url : string) : result string :=
  p ← urlsplit (list_ascii_of_string url) [];
  Value (string_of_list_ascii (host p)).

(** The [href] of every anchor, in document order. *)
Definition anchor_hrefs (html : string) : list string :=
  match Re.compile (Re.Flags false false) "<a\s+href='([^']*)'" with
  | Re.Parsed p => map Extract.join (Re.findall p html)
  | _ => []
  end.

(** A web given by its pages: the address and the body of each. *)
Definition serve (pages : list (string * string)) (url : string)
  : Crawler.response :=
  match list_find (fun page => bool_decide (fst page = url)) pages with
  | Some (_, (_, body)) => Crawler.Body body
  | None => Crawler.RequestException "404 Client Error"
  end.

Definition world (pages : list (string * string)) (o : iteration)
  : Crawler.env :=
  Crawler.Env (serve pages) anchor_hrefs urljoin netloc o.

End Lib.

(** ** The scenarios *)

Module Scenario.

Definition seed : string := "https://a.com/".
Definition p1 : string := "https://a.com/p1".
Definition p2 : string := "https://a.com/p2".

(** The seed links to p1 twice and to p2; p1 and p2 have links of their
    own. *)
Definition seed_page : string :=
  "<a href='https://a.com/p1'>one</a> <a href='https://a.com/p1'>one again</a> <a href='https://a.com/p2'>two</a>".

Definition site : list (string * string) :=
  [ (seed, seed_page);
    (p1, "<a href='https://a.com/q1'>further</a>");
    (p2, "<a href='https://a.com/q2'>further</a>");
    ("https://a.com/q1", "leaf one");
    ("https://a.com/q2", "leaf two") ].

(** A page below the root that holds a relative link. *)
Definition inner : string := "https://a.com/dir/page.html".

Definition relative_site : list (string * string) :=
  [ (seed, "<a href='dir/page.html'>docs</a>");
    (inner, "<a href='other.html'>next</a>");
    ("https://a.com/dir/other.html", "the page the link points to") ].

(** The seed and a page it links to both hold the word searched for. *)
Definition needle_site : list (string * string) :=
  [ (seed, "a needle, and <a href='https://a.com/p1'>more</a>");
    (p1, "another needle") ].

(** A site whose only page is served with an empty body. *)
Definition blank_site : list (string * string) := [ (seed, "") ].

(** A page with two links abroad, one of them to a host that differs from
    the base host by a prefix only, and two links home. *)
Definition mixed_page : string :=
  "<a href='https://b.com/x'>abroad</a> <a href='https://a.com/y'>home</a> <a href='/y'>home again</a> <a href='https://www.a.com/z'>nearly home</a>".

(** A site on which the page c lies two links from the seed through b, and
    three through a and b. *)
Definition pa : string := "https://a.com/a".
Definition pb : string := "https://a.com/b".
Definition pc : string := "https://a.com/c".

Definition shortcut_site : list (string * string) :=
  [ (seed, "<a href='https://a.com/a'>a</a> <a href='https://a.com/b'>b</a>");
    (pa, "<a href='https://a.com/b'>b</a>");
    (pb, "<a href='https://a.com/c'>c</a>");
    (pc, "the last page") ].

(** A page that holds the reference //[, which [urllib.parse.urljoin]
    refuses with a ValueError (Invalid IPv6 URL), and a world that serves
    it. *)
Definition bracket_page : string :=
  "<a href='https://a.com/p1'>one</a> <a href='//['>broken</a>".

Definition refusing_urljoin (base url : string) : Py.result string :=
  if bool_decide (url = "//[") then Py.Raises Py.ValueError
  else Lib.urljoin base url.

Definition bracket_world : Crawler.env :=
  Crawler.Env (Lib.serve [(seed, bracket_page)]) Lib.anchor_hrefs
    refusing_urljoin Lib.netloc Py.sorted_iteration.

(** A page with an email address and a phone number. *)
Definition contact_page : string :=
  "write to bob@example.com or call 555-123-4567 today".

End Scenario.

(** ** Properties of the regular-expression model *)

Module ReFacts.

Import Chars Re.

Lemma compile_nondigit :
  compile (Flags false false) "\D" = Parsed (Pattern nondigit 0 false).
Proof. reflexivity. Qed.

(** Replacing every non-digit by nothing keeps exactly the digits. *)
Lemma scan_nondigit (text : list ascii) : forall prev,
  flat_map (fun pc => match pc with
                      | Matched _ _ => []
                      | Unmatched c => [c]
                      end)
    (scan false nondigit prev text O)
  = List.filter is_digit text.
Proof.
  induction text as [|c tl IH]; intros prev.
  - reflexivity.
  - cbn [scan]. unfold matches_at, attempt.
    cbn [run nondigit step_char ahead marks].
    unfold set_matches. cbn [existsb item_matches in_category xorb orb].
    cbn [List.filter].
    destruct (is_digit c) eqn:Hd; cbn.
    + f_equal. apply IH.
    + unfold consumed. cbn [ahead length].
      replace (S (length tl) - length tl)%nat with 1%nat by lia.
      cbn. apply IH.
Qed.

Lemma sub_nondigit (text : string) :
  sub (Pattern nondigit 0 false) "" text
  = string_of_list_ascii (List.filter is_digit (list_ascii_of_string text)).
Proof. unfold sub. cbn [icase rx]. f_equal. apply scan_nondigit. Qed.

Lemma string_length_of_list (l : list ascii) :
  String.length (string_of_list_ascii l) = length l.
Proof. induction l as [|c l IH]; cbn; [reflexivity | now rewrite IH]. Qed.

(** A pattern without groups yields strings only. *)
Lemma findall_strings (p : pattern) (text : string) :
  ngroups p = O -> Forall is_str (findall p text).
Proof.
  intros Hg. unfold findall. rewrite Hg.
  induction (scan (icase p) (rx p) None (list_ascii_of_string text) 0)
    as [|pc l IH]; cbn.
  - constructor.
  - destruct pc; cbn; [exact IH | constructor; [exact I | exact IH]].
Qed.

(** On the empty text [findall] finds something exactly when the pattern
    matches the empty string. *)
Lemma findall_empty_text (p : pattern) :
  findall p "" = [] <-> matches_prefix p "" = false.
Proof.
  unfold findall, matches_prefix. cbn [list_ascii_of_string scan].
  unfold matches_at.
  destruct (attempt (icase p) (rx p) false (MState None [] [])) as [st1|].
  - unfold consumed. cbn [ahead length Nat.sub take].
    destruct (attempt (icase p) (rx p) true (MState None [] [])); cbn;
      split; discriminate.
  - cbn. split; reflexivity.
Qed.

End ReFacts.

(** ** Properties of the extractors *)

Module ExtractFacts.

Import Py Extract ReFacts.

Lemma order_elem (o : iteration) (X : gset string) (x : string) :
  x ∈ order o X <-> x ∈ X.
Proof. rewrite (order_perm o X). apply elem_of_elements. Qed.

Lemma order_empty (o : iteration) : order o ∅ = [].
Proof.
  apply Permutation_nil_r. rewrite (order_perm o ∅).
  now rewrite elements_empty.
Qed.

Lemma order_singleton (o : iteration) (x : string) : order o {[x]} = [x].
Proof.
  apply Permutation_singleton_r. rewrite (order_perm o {[x]}).
  now rewrite elements_singleton.
Qed.

Lemma order_NoDup (o : iteration) (X : gset string) : NoDup (order o X).
Proof. rewrite (order_perm o X). apply NoDup_elements. Qed.

Lemma phone_length_spec (n : nat) :
  phone_length n = true <-> n = 10%nat \/ n = 11%nat.
Proof.
  unfold phone_length. rewrite orb_true_iff, !Nat.eqb_eq. reflexivity.
Qed.

(** The digit filter of the source is the digit count. *)
Lemma has_phone_length_value (number : string) :
  has_phone_length number = Value (phone_length (digit_count number)).
Proof.
  unfold has_phone_length. rewrite compile_nondigit.
  cbn [of_parsed mbind result_bind].
  now rewrite sub_nondigit, string_length_of_list.
Qed.

Lemma add_valid_numbers_spec (matches : list Re.found) :
  forall valid : gset string,
  exists numbers : gset string,
    add_valid_numbers matches valid = Value numbers /\
    forall x, x ∈ numbers <->
      x ∈ valid \/
      (x ∈ map join matches /\ phone_length (digit_count x) = true).
Proof.
  induction matches as [|m rest IH]; intros valid; cbn [add_valid_numbers].
  - exists valid. split; [reflexivity|]. intros x. cbn. set_solver.
  - rewrite has_phone_length_value. cbn [mbind result_bind].
    destruct (IH (if phone_length (digit_count (join m))
                  then valid ∪ {[join m]} else valid))
      as (numbers & -> & Hn).
    exists numbers. split; [reflexivity|]. intros x. rewrite Hn. cbn [map].
    destruct (phone_length (digit_count (join m))) eqn:Hm.
    + rewrite elem_of_union, elem_of_singleton, elem_of_cons. naive_solver.
    + rewrite elem_of_cons.
      split; [intros [?|[? ?]]; auto | intros [?|[[Hx|?] ?]]; auto].
      subst x. congruence.
Qed.

Lemma valid_numbers_spec (html : string) :
  exists numbers : gset string,
    valid_numbers html = Value numbers /\
    forall x, x ∈ numbers ->
      digit_count x = 10%nat \/ digit_count x = 11%nat.
Proof.
  unfold valid_numbers.
  destruct (Re.compile (Re.Flags false true) phone_pattern) as [p| |] eqn:Hp;
    [|vm_compute in Hp; discriminate..].
  cbn [of_parsed mbind result_bind].
  destruct (add_valid_numbers_spec (Re.findall p html) ∅)
    as (numbers & -> & Hn).
  exists numbers. split; [reflexivity|]. intros x Hx.
  apply Hn in Hx as [Hx|[_ Hx]]; [set_solver|].
  now apply phone_length_spec.
Qed.

Lemma add_valid_emails_spec (v : Re.pattern) (matches : list Re.found) :
  Re.compile (Re.Flags false false) email_validation = Re.Parsed v ->
  Forall Re.is_str matches ->
  forall valid : gset string,
  exists emails : gset string,
    add_valid_emails matches valid = Value emails /\
    forall x, x ∈ emails ->
      x ∈ valid \/ Re.matches_prefix v x = true.
Proof.
  intros Hv Hs. induction Hs as [|m rest Hm _ IH]; intros valid;
    cbn [add_valid_emails].
  - exists valid. split; [reflexivity|]. auto.
  - destruct m as [email|]; [|destruct Hm]. rewrite Hv.
    cbn [of_parsed mbind result_bind].
    destruct (IH (if Re.matches_prefix v email
                  then valid ∪ {[email]} else valid))
      as (emails & -> & He).
    exists emails. split; [reflexivity|]. intros x Hx.
    apply He in Hx as [Hx|Hx]; [|auto].
    destruct (Re.matches_prefix v email) eqn:Hm'; [|auto].
    apply elem_of_union in Hx as [Hx|Hx]; [auto|].
    apply elem_of_singleton in Hx as ->. auto.
Qed.

Lemma valid_emails_spec (v : Re.pattern) (html : string) :
  Re.compile (Re.Flags false false) email_validation = Re.Parsed v ->
  exists emails : gset string,
    valid_emails html = Value emails /\
    forall x, x ∈ emails -> Re.matches_prefix v x = true.
Proof.
  intros Hv. unfold valid_emails.
  destruct (Re.compile (Re.Flags false false) email_pattern) as [p| |] eqn:Hp;
    [|vm_compute in Hp; discriminate..].
  cbn [of_parsed mbind result_bind].
  assert (Hg : Re.ngroups p = O).
  { vm_compute in Hp. injection Hp as <-. reflexivity. }
  destruct (add_valid_emails_spec v (Re.findall p html) Hv
              (findall_strings p html Hg) ∅) as (emails & -> & He).
  exists emails. split; [reflexivity|]. intros x Hx.
  apply He in Hx as [Hx|Hx]; [set_solver|exact Hx].
Qed.

(** Evaluating an extractor on a given text, whatever the iteration order:
    the set is computed, then enumerated. *)
Ltac evaluate_set :=
  match goal with
  | |- context [valid_numbers ?t] =>
      let v := eval vm_compute in (valid_numbers t) in
      change (valid_numbers t) with v
  | |- context [valid_emails ?t] =>
      let v := eval vm_compute in (valid_emails t) in
      change (valid_emails t) with v
  end; cbn [mbind result_bind].

Ltac extractor_singleton :=
  intros; unfold find_phone_numbers, find_email_addresses; evaluate_set;
  match goal with
  | |- Value (order ?o ?X) = Value [?x] =>
      change X with ({[ x ]} : gset string)
  end;
  rewrite order_singleton; reflexivity.

Ltac extractor_empty :=
  intros; unfold find_phone_numbers, find_email_addresses; evaluate_set;
  match goal with
  | |- Value (order ?o ?X) = Value [] => change X with (∅ : gset string)
  end;
  rewrite order_empty; reflexivity.

(** C7.  Every candidate the phone extractor returns has exactly 10 or
    exactly 11 digits once the non-digits are stripped; the digit run
    5551234567 set in prose is returned as a candidate, and a text that
    holds only 123 yields none. *)
Theorem phone_candidates_have_10_or_11_digits :
  (forall (o : iteration) (html : string),
     exists l : list string,
       find_phone_numbers o html = Value l /\
       forall x, x ∈ l ->
         digit_count x = 10%nat \/ digit_count x = 11%nat) /\
  (forall o : iteration,
     find_phone_numbers o "Please call 5551234567 before noon."
     = Value ["5551234567"]) /\
  (forall o : iteration, find_phone_numbers o "123" = Value []).
Proof.
  split; [|split].
  - intros o html. unfold find_phone_numbers.
    destruct (valid_numbers_spec html) as (numbers & -> & Hn).
    cbn [mbind result_bind]. exists (order o numbers).
    split; [reflexivity|]. intros x Hx. apply Hn.
    exact (proj1 (order_elem o numbers x) Hx).
  - extractor_singleton.
  - extractor_empty.
Qed.

(** C8.  The email extractor accepts user@example.com, alone or inside a
    text, and rejects user@@example.com and user@example; every address it
    returns matches the anchored validation pattern from end to end. *)
Theorem email_validation_examples :
  (forall o : iteration,
     find_email_addresses o "user@example.com" = Value ["user@example.com"]) /\
  (forall o : iteration,
     find_email_addresses o "user@@example.com" = Value []) /\
  (forall o : iteration,
     find_email_addresses o "user@example" = Value []) /\
  (forall o : iteration,
     find_email_addresses o
       "Write to user@example.com, not to user@@example.com or user@example"
     = Value ["user@example.com"]) /\
  (exists v : Re.pattern,
     Re.compile (Re.Flags false false) email_validation = Re.Parsed v /\
     Re.matches_prefix v "user@example.com" = true /\
     Re.matches_prefix v "user@@example.com" = false /\
     Re.matches_prefix v "user@example" = false /\
     forall (o : iteration) (html : string),
     exists l : list string,
       find_email_addresses o html = Value l /\
       forall x, x ∈ l -> Re.matches_prefix v x = true).
Proof.
  split; [|split; [|split; [|split]]].
  - extractor_singleton.
  - extractor_empty.
  - extractor_empty.
  - extractor_singleton.
  - destruct (Re.compile (Re.Flags false false) email_validation)
      as [v| |] eqn:Hv; [|vm_compute in Hv; discriminate..].
    exists v. split; [reflexivity|].
    assert (Hv' := Hv). vm_compute in Hv'. injection Hv' as <-.
    split; [vm_compute; reflexivity|].
    split; [vm_compute; reflexivity|].
    split; [vm_compute; reflexivity|].
    intros o html. unfold find_email_addresses.
    destruct (valid_emails_spec _ html Hv) as (emails & -> & He).
    cbn [mbind result_bind]. exists (order o emails).
    split; [reflexivity|]. intros x Hx. apply He.
    exact (proj1 (order_elem o emails x) Hx).
Qed.

(** C6, as the code has it.  The phone and the email extractor return a
    result for every text, the empty one for the empty text.  The custom
    extractor hands its pattern to the regular-expression engine: for a
    pattern the engine accepts it returns a result for every text, and on
    the empty text that result is empty exactly when the pattern does not
    match the empty string; a pattern the engine rejects raises. *)
Theorem extractors_total :
  (forall (o : iteration) (html : string),
     exists l, find_phone_numbers o html = Value l) /\
  (forall o : iteration, find_phone_numbers o "" = Value []) /\
  (forall (o : iteration) (html : string),
     exists l, find_email_addresses o html = Value l) /\
  (forall o : iteration, find_email_addresses o "" = Value []) /\
  (forall (pat : string) (p : Re.pattern),
     Re.compile (Re.Flags true false) pat = Re.Parsed p ->
     (forall html : string, exists l, find_strings html pat = Value l) /\
     (find_strings "" pat = Value [] <-> Re.matches_prefix p "" = false)) /\
  (forall pat : string,
     Re.compile (Re.Flags true false) pat = Re.ReError ->
     forall html : string, find_strings html pat = Raises re_error).
Proof.
  split; [|split; [|split; [|split; [|split]]]].
  - intros o html. unfold find_phone_numbers.
    destruct (valid_numbers_spec html) as (numbers & -> & _).
    cbn [mbind result_bind]. eauto.
  - extractor_empty.
  - intros o html. unfold find_email_addresses.
    destruct (Re.compile (Re.Flags false false) email_validation)
      as [v| |] eqn:Hv; [|vm_compute in Hv; discriminate..].
    destruct (valid_emails_spec v html Hv) as (emails & -> & _).
    cbn [mbind result_bind]. eauto.
  - extractor_empty.
  - intros pat p Hp. unfold find_strings. rewrite Hp.
    cbn [of_parsed mbind result_bind]. split; [eauto|].
    rewrite <- findall_empty_text. split; [congruence|intros ->; reflexivity].
  - intros pat Hp html. unfold find_strings. now rewrite Hp.
Qed.

Lemma extractors_total_witness :
  (exists p, Re.compile (Re.Flags true false) "needle" = Re.Parsed p) /\
  exists l, find_strings "a needle in the hay" "needle" = Value l.
Proof.
  split; [eexists; reflexivity|].
  exact (proj1 (proj1 (proj2 (proj2 (proj2 (proj2 extractors_total))))
                  "needle" _ eq_refl) "a needle in the hay").
Defined.

(** C6 as stated fails for the custom extractor: an ill-formed pattern
    raises, and a pattern that matches the empty string yields one (empty)
    match on the empty text. *)
Lemma find_strings_not_total :
  ~ (exists l, find_strings "" "(" = Value l) /\
  find_strings "" "a*" = Value [Re.FStr ""].
Proof.
  split; [|reflexivity]. intros [l Hl]. vm_compute in Hl. discriminate.
Qed.

End ExtractFacts.

(** ** Properties of the crawl engine *)

Module CrawlerFacts.

Import Py Extract Crawler ExtractFacts.

(** Splits a conjunction into its conjuncts, and nothing else. *)
Ltac conjuncts := repeat match goal with |- _ /\ _ => split end.

Lemma fetched_app (t1 t2 : list event) :
  fetched (t1 ++ t2) = fetched t1 ++ fetched t2.
Proof. apply omap_app. Qed.

(** *** Steps that request nothing *)

Lemma same_state (s : state) :
  s = State (visited_urls s) (trace s ++ []).
Proof. destruct s. cbn. now rewrite app_nil_r. Qed.

Lemma quiet_ret : quiet ret.
Proof. intros s. exists []. split; [apply same_state | reflexivity]. Qed.

Lemma quiet_emit (e : event) : fetched [e] = [] -> quiet (emit e).
Proof. intros He s. exists [e]. split; [reflexivity | exact He]. Qed.

Lemma quiet_and_then (a b : step) : quiet a -> quiet b -> quiet (and_then a b).
Proof.
  intros Ha Hb s. unfold and_then.
  destruct (Ha s) as (ta & Hsa & Hta).
  destruct (a s) as [[| | |] sa]; cbn [snd] in Hsa; subst sa;
    try (exists ta; split; [reflexivity | exact Hta]).
  destruct (Hb (State (visited_urls s) (trace s ++ ta))) as (tb & Hsb & Htb).
  exists (ta ++ tb). rewrite Hsb. cbn [visited_urls trace].
  rewrite <- app_assoc, fetched_app, Hta, Htb. split; reflexivity.
Qed.

Lemma quiet_with_result {A} (r : result A) (k : A -> step) :
  (forall a, quiet (k a)) -> quiet (with_result r k).
Proof.
  intros Hk s. unfold with_result. destruct r as [a| |].
  - apply Hk.
  - exists []. split; [apply same_state | reflexivity].
  - exists []. split; [apply same_state | reflexivity].
Qed.

Lemma quiet_when (b : bool) (a : step) : quiet a -> quiet (when b a).
Proof. destruct b; [trivial | intros _; apply quiet_ret]. Qed.

Lemma quiet_sleep (delay : Q) : quiet (sleep delay).
Proof.
  unfold sleep. destruct (Qle_bool 0 delay).
  - now apply quiet_emit.
  - intros s. exists []. split; [apply same_state | reflexivity].
Qed.

Lemma quiet_extract (E : env) (url html : string) (phone email : bool)
    (search_string : option string) :
  quiet (extract E url html phone email search_string).
Proof.
  unfold extract. repeat apply quiet_and_then.
  - apply quiet_when. unfold report_phone. apply quiet_with_result.
    intros l. destruct (nonempty l); [|apply quiet_ret].
    apply quiet_with_result. intros l'.
    destruct (nonempty l'); [now apply quiet_emit | apply quiet_ret].
  - apply quiet_when. unfold report_email. apply quiet_with_result.
    intros l. destruct (nonempty l); [now apply quiet_emit | apply quiet_ret].
  - destruct search_string as [pat|]; [|apply quiet_ret].
    apply quiet_when. unfold report_strings. apply quiet_with_result.
    intros l. destruct (nonempty l); [now apply quiet_emit | apply quiet_ret].
Qed.

(** *** Composing runs *)

Section Growth.
Variable good : string -> Prop.

Lemma grows_refl (s : state) : grows good s s.
Proof.
  exists []. rewrite app_nil_r.
  split; [reflexivity|]. split; [set_solver|]. split; [constructor|].
  intros u Hu. inversion Hu.
Qed.

Lemma grows_trans (s1 s2 s3 : state) :
  grows good s1 s2 -> grows good s2 s3 -> grows good s1 s3.
Proof.
  intros (t1 & Ht1 & Hv1 & Hn1 & Hu1) (t2 & Ht2 & Hv2 & Hn2 & Hu2).
  exists (t1 ++ t2). rewrite Ht2, Ht1, app_assoc, fetched_app.
  split; [reflexivity|]. split; [set_solver|]. split.
  - apply NoDup_app. split; [exact Hn1|]. split; [|exact Hn2].
    intros u Hin1 Hin2. apply Hu1 in Hin1. apply Hu2 in Hin2. tauto.
  - intros u Hin. apply elem_of_app in Hin as [Hin|Hin].
    + apply Hu1 in Hin as (? & ? & ?). repeat split; [assumption| |assumption].
      set_solver.
    + apply Hu2 in Hin as (? & ? & ?). repeat split; [|assumption..].
      set_solver.
Qed.

Lemma grows_quiet (a : step) (s : state) : quiet a -> grows good s (snd (a s)).
Proof.
  intros Ha. destruct (Ha s) as (t & -> & Ht). exists t.
  cbn [trace visited_urls]. rewrite Ht.
  split; [reflexivity|]. split; [set_solver|]. split; [constructor|].
  intros u Hu. inversion Hu.
Qed.

Lemma sound_quiet (a : step) : quiet a -> sound good a.
Proof. intros Ha s. now apply grows_quiet. Qed.

Lemma sound_and_then (a b : step) :
  sound good a -> sound good b -> sound good (and_then a b).
Proof.
  intros Ha Hb s. unfold and_then. specialize (Ha s).
  destruct (a s) as [[| | |] sa]; cbn [snd] in *; try exact Ha.
  eapply grows_trans; [exact Ha | apply Hb].
Qed.

Lemma sound_with_result {A} (r : result A) (k : A -> step) :
  (forall a, r = Value a -> sound good (k a)) -> sound good (with_result r k).
Proof.
  intros Hk s. unfold with_result. destruct r as [a| |].
  - now apply Hk.
  - apply grows_refl.
  - apply grows_refl.
Qed.

Lemma sound_for_each_link (delay : Q) (visit : string -> step)
    (todo : list string) :
  (forall link, link ∈ todo -> sound good (visit link)) ->
  sound good (for_each_link delay visit todo).
Proof.
  induction todo as [|link rest IH]; intros Hv; cbn [for_each_link].
  - apply sound_quiet, quiet_ret.
  - apply sound_and_then; [apply sound_quiet, quiet_sleep|].
    apply sound_and_then; [apply Hv; left|].
    apply IH. intros l Hl. apply Hv. now right.
Qed.
End Growth.

Lemma grows_weaken (good good' : string -> Prop) (s s' : state) :
  (forall u, good u -> good' u) -> grows good s s' -> grows good' s s'.
Proof.
  intros Hg (t & Ht & Hv & Hn & Hu). exists t.
  split; [exact Ht|]. split; [exact Hv|]. split; [exact Hn|].
  intros u Hin. apply Hu in Hin as (? & ? & ?). auto.
Qed.

(** *** The run of one task *)

Section Run.
Variable E : env.
Variables (base_url : string) (follow_external : bool) (delay : Q).
Variables (phone email : bool).

Lemma crawl_skip (fuel : nat) (url : string) (depth : Z)
    (search_string : option string) (s : state) :
  depth = 0 \/ url ∈ visited_urls s ->
  crawl E (S fuel) url base_url depth follow_external delay phone email
    search_string s = (Returned, s).
Proof.
  intros H. cbn [crawl].
  destruct H as [-> | H]; [reflexivity|].
  rewrite (bool_decide_eq_true_2 _ H). now rewrite orb_true_r.
Qed.

Lemma crawl_enter (fuel : nat) (url : string) (depth : Z)
    (search_string : option string) (s : state) :
  depth <> 0 -> url ∉ visited_urls s ->
  crawl E (S fuel) url base_url depth follow_external delay phone email
    search_string s
  = let '(html, s2) := fetch_html E url (entered url s) in
    if negb (truthy html) then (Returned, s2)
    else
      and_then (extract E url html phone email search_string)
        (with_result (get_links E html base_url follow_external)
           (fun links =>
              for_each_link delay
                (fun link =>
                   crawl E fuel link base_url (depth - 1) follow_external
                     delay phone email None)
                (set_order E links))) s2.
Proof.
  intros Hd Hv. cbn [crawl].
  rewrite (proj2 (Z.eqb_neq depth 0) Hd), (bool_decide_eq_false_2 _ Hv).
  reflexivity.
Qed.

Lemma crawl_sound (fuel : nat) :
  forall (url : string) (depth : Z) (search_string : option string),
    sound (within E base_url follow_external url depth)
      (crawl E fuel url base_url depth follow_external delay phone email
         search_string).
Proof.
  induction fuel as [|fuel IH]; intros url depth search_string s.
  - apply grows_refl.
  - destruct (decide (depth = 0 \/ url ∈ visited_urls s)) as [Hskip|Hgo].
    + rewrite crawl_skip by exact Hskip. apply grows_refl.
    + assert (Hd : depth <> 0) by tauto.
      assert (Hv : url ∉ visited_urls s) by tauto.
      rewrite crawl_enter by assumption. unfold fetch_html, entered.
      cbn [visited_urls trace].
      (* the request itself *)
      assert (Hreq : forall t', fetched t' = [] ->
        grows (within E base_url follow_external url depth) s
          (State (visited_urls s ∪ {[url]})
             (((trace s ++ [Crawling url]) ++ [Get url]) ++ t'))).
      { intros t' Ht'. exists ([Crawling url; Get url] ++ t').
        cbn [trace visited_urls].
        split; [now rewrite <- !app_assoc|]. split; [set_solver|].
        rewrite fetched_app, Ht'. cbn. split; [apply NoDup_singleton|].
        intros u Hu. apply list_elem_of_singleton in Hu as ->.
        split; [assumption|]. split; [set_solver|].
        intros Hpos. exists O. split; [lia | constructor]. }
      assert (Hreq0 := Hreq [] eq_refl). rewrite app_nil_r in Hreq0.
      destruct (requests_get E url) as [html|msg] eqn:Hget.
      * destruct (truthy html) eqn:Hh; cbn [negb snd]; [|exact Hreq0].
        eapply grows_trans; [exact Hreq0|].
        apply sound_and_then; [apply sound_quiet, quiet_extract|].
        apply sound_with_result. intros links Hl.
        apply sound_for_each_link. intros link Hlink s'.
        eapply grows_weaken; [|apply IH].
        intros u Hin Hpos. destruct Hin as (k & Hk & Hhops); [lia|].
        exists (S k). split; [lia|].
        eapply hops_next; eauto.
        apply (order_elem (set_order E) links link), Hlink.
      * cbn [negb truthy snd visited_urls trace].
        exact (Hreq [FailedToFetch url msg] eq_refl).
Qed.

(** A page that is requested and comes back empty, whether the request
    failed or the body is empty, ends the task there. *)
Lemma crawl_empty (fuel : nat) (url : string) (depth : Z)
    (search_string : option string) (s : state) :
  depth <> 0 -> url ∉ visited_urls s ->
  truthy (fst (fetch_html E url (entered url s))) = false ->
  crawl E (S fuel) url base_url depth follow_external delay phone email
    search_string s
  = (Returned, snd (fetch_html E url (entered url s))).
Proof.
  intros Hd Hv He. rewrite crawl_enter by assumption.
  destruct (fetch_html E url (entered url s)) as [html s2].
  cbn [fst snd] in *. now rewrite He.
Qed.

(** Tasks started with no depth left do nothing but wait their turn. *)
Lemma skip_all (fuel : nat) (todo : list string) :
  Qle_bool 0 delay = true ->
  forall s : state,
    for_each_link delay
      (fun link =>
         crawl E (S fuel) link base_url (1 - 1) follow_external delay
           phone email None) todo s
    = (Returned,
       State (visited_urls s)
         (trace s ++ replicate (length todo) (Sleep delay))).
Proof.
  intros Hdelay. induction todo as [|link rest IH]; intros s.
  - cbn. now rewrite app_nil_r; destruct s.
  - cbn [for_each_link length replicate]. unfold and_then at 1, sleep.
    rewrite Hdelay. cbn [emit]. unfold and_then at 1.
    rewrite crawl_skip by now left.
    rewrite IH. cbn [visited_urls trace]. now rewrite <- app_assoc.
Qed.

(** With nothing to report, the extractors leave the state alone. *)
Lemma extract_nothing (url html : string) (s : state) :
  valid_numbers html = Value ∅ -> valid_emails html = Value ∅ ->
  extract E url html phone email None s = (Returned, s).
Proof.
  intros Hn He. unfold extract, and_then, when, report_phone, report_email,
    find_phone_numbers, find_email_addresses, with_result.
  rewrite Hn, He. cbn [mbind result_bind]. rewrite order_empty.
  destruct phone, email; reflexivity.
Qed.

(** A run of depth 1: the page is requested, each of its links waits its
    turn and is then skipped, its depth being spent. *)
Lemma crawl_depth_one (fuel : nat) (url html : string)
    (links : gset string) (s : state) :
  Qle_bool 0 delay = true ->
  url ∉ visited_urls s ->
  requests_get E url = Body html -> truthy html = true ->
  valid_numbers html = Value ∅ -> valid_emails html = Value ∅ ->
  get_links E html base_url follow_external = Value links ->
  crawl E (S (S fuel)) url base_url 1 follow_external delay phone email
    None s
  = (Returned,
     State (visited_urls s ∪ {[url]})
       (trace s ++ [Crawling url; Get url]
          ++ replicate (size links) (Sleep delay))).
Proof.
  intros Hdelay Hv Hget Hh Hn He Hl.
  rewrite crawl_enter by (try assumption; lia).
  unfold fetch_html, entered. rewrite Hget. cbn [visited_urls trace].
  rewrite Hh. cbn [negb]. unfold and_then.
  rewrite extract_nothing by assumption.
  unfold with_result. rewrite Hl. rewrite skip_all by assumption.
  cbn [visited_urls trace].
  replace (length (set_order E links)) with (size links).
  - now rewrite <- !app_assoc.
  - unfold size, set_size. cbn. now rewrite (order_perm (set_order E) links).
Qed.
End Run.

(** *** Termination: the fuel a run needs *)

Lemma finishes_ret : finishes ret.
Proof. intros s. discriminate. Qed.

Lemma finishes_emit (e : event) : finishes (emit e).
Proof. intros s. discriminate. Qed.

Lemma finishes_and_then (a b : step) :
  finishes a -> finishes b -> finishes (and_then a b).
Proof.
  intros Ha Hb s. unfold and_then. specialize (Ha s).
  destruct (a s) as [[| | |] sa]; cbn [fst] in *;
    try discriminate; [apply Hb | congruence].
Qed.

Lemma finishes_with_result {A} (r : result A) (k : A -> step) :
  (forall a, finishes (k a)) -> finishes (with_result r k).
Proof.
  intros Hk s. unfold with_result. destruct r; [apply Hk | discriminate..].
Qed.

Lemma finishes_sleep (delay : Q) : finishes (sleep delay).
Proof.
  unfold sleep. destruct (Qle_bool 0 delay); [apply finishes_emit|].
  intros s. discriminate.
Qed.

Lemma finishes_extract (E : env) (url html : string) (phone email : bool)
    (search_string : option string) :
  finishes (extract E url html phone email search_string).
Proof.
  unfold extract, when, report_phone, report_email, report_strings.
  repeat apply finishes_and_then.
  - destruct phone; [|apply finishes_ret].
    apply finishes_with_result. intros l.
    destruct (nonempty l); [|apply finishes_ret].
    apply finishes_with_result. intros l'.
    destruct (nonempty l'); [apply finishes_emit | apply finishes_ret].
  - destruct email; [|apply finishes_ret].
    apply finishes_with_result. intros l.
    destruct (nonempty l); [apply finishes_emit | apply finishes_ret].
  - destruct search_string as [pat|]; [|apply finishes_ret].
    destruct (truthy pat); [|apply finishes_ret].
    apply finishes_with_result. intros l.
    destruct (nonempty l); [apply finishes_emit | apply finishes_ret].
Qed.

Lemma finishes_for_each_link (delay : Q) (visit : string -> step)
    (todo : list string) :
  (forall link, finishes (visit link)) ->
  finishes (for_each_link delay visit todo).
Proof.
  intros Hv. induction todo as [|link rest IH]; cbn [for_each_link].
  - apply finishes_ret.
  - apply finishes_and_then; [apply finishes_sleep|].
    apply finishes_and_then; [apply Hv | exact IH].
Qed.

(** With a depth limit that is not negative, a run returns (or stops on an
    exception) once the fuel exceeds the limit. *)
Lemma crawl_finishes (E : env) (base_url : string) (follow_external : bool)
    (delay : Q) (phone email : bool) (fuel : nat) :
  forall (url : string) (depth : Z) (search_string : option string),
    0 <= depth -> (Z.to_nat depth < fuel)%nat ->
    finishes (crawl E fuel url base_url depth follow_external delay phone
                email search_string).
Proof.
  induction fuel as [|fuel IH]; intros url depth search_string Hpos Hfuel s;
    [lia|].
  destruct (decide (depth = 0 \/ url ∈ visited_urls s)) as [Hskip|Hgo].
  - rewrite crawl_skip by exact Hskip. discriminate.
  - rewrite crawl_enter by tauto.
    destruct (fetch_html E url (entered url s)) as [html s2].
    destruct (negb (truthy html)); [discriminate|].
    apply finishes_and_then; [apply finishes_extract|].
    apply finishes_with_result. intros links.
    apply finishes_for_each_link. intros link. apply IH; lia.
Qed.

(** *** Where the custom extractor reports *)

Lemma emits_ret (P : event -> Prop) : emits P ret.
Proof. intros s. exists []. now rewrite app_nil_r. Qed.

Lemma emits_emit (P : event -> Prop) (e : event) : P e -> emits P (emit e).
Proof. intros He s. exists [e]. split; [reflexivity | now constructor]. Qed.

Lemma emits_and_then (P : event -> Prop) (a b : step) :
  emits P a -> emits P b -> emits P (and_then a b).
Proof.
  intros Ha Hb s. unfold and_then. destruct (Ha s) as (ta & Hta & Hpa).
  destruct (a s) as [[| | |] sa]; cbn [snd] in *; try (now exists ta).
  destruct (Hb sa) as (tb & Htb & Hpb). exists (ta ++ tb).
  rewrite Htb, Hta, app_assoc. split; [reflexivity | now apply Forall_app].
Qed.

Lemma emits_with_result (P : event -> Prop) {A} (r : result A)
    (k : A -> step) :
  (forall a, emits P (k a)) -> emits P (with_result r k).
Proof.
  intros Hk s. unfold with_result.
  destruct r; [apply Hk | exists []; now rewrite app_nil_r..].
Qed.

Lemma emits_sleep (P : event -> Prop) (delay : Q) :
  P (Sleep delay) -> emits P (sleep delay).
Proof.
  intros Hp. unfold sleep. destruct (Qle_bool 0 delay).
  - now apply emits_emit.
  - intros s. exists []. now rewrite app_nil_r.
Qed.

Lemma emits_for_each_link (P : event -> Prop) (delay : Q)
    (visit : string -> step) (todo : list string) :
  P (Sleep delay) -> (forall link, emits P (visit link)) ->
  emits P (for_each_link delay visit todo).
Proof.
  intros Hs Hv. induction todo as [|link rest IH]; cbn [for_each_link].
  - apply emits_ret.
  - apply emits_and_then; [now apply emits_sleep|].
    apply emits_and_then; [apply Hv | exact IH].
Qed.

Lemma emits_weaken (P Q : event -> Prop) (a : step) :
  (forall e, P e -> Q e) -> emits P a -> emits Q a.
Proof.
  intros Hpq Ha s. destruct (Ha s) as (t & Ht & Hp). exists t.
  split; [exact Ht | eapply Forall_impl; eauto].
Qed.

Lemma emits_extract (E : env) (url html : string) (phone email : bool)
    (search_string : option string) :
  emits (strings_about url)
    (extract E url html phone email search_string) /\
  (search_string = None ->
   emits not_strings (extract E url html phone email search_string)).
Proof.
  assert (Hgen : forall P : event -> Prop,
            (forall l, P (PhoneNumbers url l)) ->
            (forall l, P (EmailAddresses url l)) ->
            (forall pat l, search_string = Some pat -> P (Strings url l)) ->
            emits P (extract E url html phone email search_string)).
  { intros P Hp He Hs.
    unfold extract, when, report_phone, report_email, report_strings.
    repeat apply emits_and_then.
    - destruct phone; [|apply emits_ret].
      apply emits_with_result. intros l.
      destruct (nonempty l); [|apply emits_ret].
      apply emits_with_result. intros l'.
      destruct (nonempty l'); [apply emits_emit, Hp | apply emits_ret].
    - destruct email; [|apply emits_ret].
      apply emits_with_result. intros l.
      destruct (nonempty l); [apply emits_emit, He | apply emits_ret].
    - destruct search_string as [pat|]; [|apply emits_ret].
      destruct (truthy pat); [|apply emits_ret].
      apply emits_with_result. intros l.
      destruct (nonempty l); [|apply emits_ret].
      apply emits_emit. now apply (Hs pat). }
  split.
  - apply Hgen; intros; exact I || reflexivity.
  - intros ->. apply Hgen; intros; exact I || discriminate.
Qed.

(** A task started without a pattern reports no custom match, neither
    itself nor through the tasks of its links. *)
Lemma crawl_without_pattern (E : env) (base_url : string)
    (follow_external : bool) (delay : Q) (phone email : bool) (fuel : nat) :
  forall (url : string) (depth : Z),
    emits not_strings
      (crawl E fuel url base_url depth follow_external delay phone email None).
Proof.
  induction fuel as [|fuel IH]; intros url depth s.
  - exists []. now rewrite app_nil_r.
  - destruct (decide (depth = 0 \/ url ∈ visited_urls s)) as [Hskip|Hgo].
    + rewrite crawl_skip by exact Hskip. exists []. now rewrite app_nil_r.
    + rewrite crawl_enter by tauto.
      assert (Hf : exists t0, Forall not_strings t0 /\
                trace (snd (fetch_html E url (entered url s)))
                = trace s ++ t0).
      { unfold fetch_html, entered.
        destruct (requests_get E url); cbn [snd trace].
        - exists [Crawling url; Get url]. rewrite <- app_assoc.
          split; [repeat constructor | reflexivity].
        - exists [Crawling url; Get url; FailedToFetch url msg].
          rewrite <- !app_assoc. split; [repeat constructor | reflexivity]. }
      destruct Hf as (t0 & Hp0 & Ht0).
      destruct (fetch_html E url (entered url s)) as [html s2].
      cbn [snd] in Ht0.
      destruct (negb (truthy html)); [now exists t0|].
      match goal with |- context [and_then ?a ?b s2] =>
        destruct (emits_and_then not_strings a b) with (s := s2)
          as (t1 & Ht1 & Hp1)
      end.
      * now apply emits_extract.
      * apply emits_with_result. intros links.
        apply emits_for_each_link; [exact I | intros link; apply IH].
      * exists (t0 ++ t1). rewrite Ht1, Ht0, app_assoc.
        split; [reflexivity | now apply Forall_app].
Qed.

(** Whatever the pattern, the only page a run reports custom matches for is
    the one it started from. *)
Lemma strings_only_for_the_seed (E : env) (fuel : nat)
    (starting_url : string) (search_string : option string) (depth : Z)
    (follow_external : bool) (delay : Q) (phone email : bool) :
  Forall (strings_about starting_url)
    (trace (snd (main E fuel starting_url search_string depth
                   follow_external delay phone email))).
Proof.
  unfold main. destruct fuel as [|fuel]; [constructor|].
  destruct (decide (depth = 0 \/ starting_url ∈ visited_urls initial))
    as [Hskip|Hgo].
  - rewrite crawl_skip by exact Hskip. constructor.
  - rewrite crawl_enter by tauto. unfold fetch_html, entered.
    cbn [initial visited_urls trace app].
    destruct (requests_get E starting_url) as [html|msg];
      cbn [negb truthy]; [|repeat constructor].
    destruct (negb (truthy html)); [repeat constructor|].
    match goal with |- context [and_then ?a ?b ?s2] =>
      destruct (emits_and_then (strings_about starting_url) a b)
        with (s := s2) as (t1 & Ht1 & Hp1)
    end.
    + now apply emits_extract.
    + apply emits_with_result. intros links.
      apply emits_for_each_link; [exact I|]. intros link.
      eapply emits_weaken; [|apply crawl_without_pattern].
      intros [] He; try exact I. destruct He.
    + rewrite Ht1. cbn [trace]. apply Forall_app.
      split; [repeat constructor | exact Hp1].
Qed.

(** *** The link resolver *)

Section Links.
Variable E : env.
Variables (base_url base_domain : string) (follow_external : bool).

Lemma add_links_spec (hrefs : list string) :
  forall links0 links : gset string,
    add_links E base_url base_domain follow_external hrefs links0
    = Value links ->
    forall u, u ∈ links <->
      u ∈ links0 \/ kept E base_url base_domain follow_external hrefs u.
Proof.
  induction hrefs as [|href rest IH]; intros links0 links; cbn [add_links].
  - intros [= <-] u. split; [auto|]. intros [?|(h & d & Hin & _)]; [auto|].
    inversion Hin.
  - destruct (urljoin E base_url href) as [full| |] eqn:Hj;
      cbn [mbind result_bind]; try discriminate.
    destruct (netloc E full) as [dom| |] eqn:Hn;
      cbn [mbind result_bind]; try discriminate.
    intros Hrest u. rewrite (IH _ _ Hrest). unfold kept.
    destruct (follow_external || bool_decide (dom = base_domain)) eqn:Hk.
    + rewrite elem_of_union, elem_of_singleton. split.
      * intros [[?| ->]|(h & d & Hin & ?)]; [auto| |].
        -- right. exists href, dom. split; [left|].
           split; [exact Hj|]. split; [exact Hn|].
           apply orb_true_iff in Hk as [Hk|Hk]; [auto|].
           right. now apply bool_decide_eq_true in Hk.
        -- right. exists h, d. split; [now right | assumption].
      * intros [?|(h & d & Hin & Hu & Hd & Hok)]; [auto|].
        apply elem_of_cons in Hin as [-> | Hin].
        -- left. right. congruence.
        -- right. exists h, d. auto.
    + split.
      * intros [?|(h & d & Hin & ?)]; [auto|].
        right. exists h, d. split; [now right | assumption].
      * intros [?|(h & d & Hin & Hu & Hd & Hok)]; [auto|].
        apply elem_of_cons in Hin as [-> | Hin].
        -- exfalso. rewrite Hj in Hu. injection Hu as ->.
           rewrite Hn in Hd. injection Hd as ->.
           apply orb_false_iff in Hk as [Hf Hb].
           apply bool_decide_eq_false in Hb. destruct Hok; congruence.
        -- right. exists h, d. auto.
Qed.

Lemma add_links_total (hrefs : list string) :
  (forall href, href ∈ hrefs ->
     exists u d, urljoin E base_url href = Value u /\
                 netloc E u = Value d) ->
  forall links0 : gset string,
  exists links : gset string,
    add_links E base_url base_domain follow_external hrefs links0
    = Value links.
Proof.
  induction hrefs as [|href rest IH]; intros Hres links0; cbn [add_links].
  - eauto.
  - destruct (Hres href) as (u & d & -> & Hd); [left|].
    cbn [mbind result_bind]. rewrite Hd. cbn [mbind result_bind].
    apply IH. intros h Hh. apply Hres. now right.
Qed.
End Links.

(** C1.  In every run each URL is requested at most once.  This holds of
    each task from any state: the URLs it requests are pairwise distinct,
    none of them was in [visited_urls] when the task began, all of them are
    in it afterwards, and [visited_urls] never loses a member. *)
Theorem each_url_fetched_at_most_once :
  (forall (E : env) (fuel : nat) (url base_url : string) (depth : Z)
          (follow_external : bool) (delay : Q) (phone email : bool)
          (search_string : option string) (s : state),
     exists t : list event,
       trace (snd (crawl E fuel url base_url depth follow_external delay
                     phone email search_string s)) = trace s ++ t /\
       visited_urls s ⊆
         visited_urls (snd (crawl E fuel url base_url depth follow_external
                              delay phone email search_string s)) /\
       NoDup (fetched t) /\
       forall u, u ∈ fetched t ->
         (u ∉ visited_urls s) /\
         (u ∈ visited_urls (snd (crawl E fuel url base_url depth
                                  follow_external delay phone email
                                  search_string s)))) /\
  (forall (E : env) (fuel : nat) (starting_url : string)
          (search_string : option string) (depth : Z)
          (follow_external : bool) (delay : Q) (phone email : bool),
     NoDup (fetched (trace (snd (main E fuel starting_url search_string
                                   depth follow_external delay phone
                                   email))))).
Proof.
  split.
  - intros. destruct (crawl_sound E base_url follow_external delay phone
                        email fuel url depth search_string s)
      as (t & Ht & Hv & Hn & Hu).
    exists t. split; [exact Ht|]. split; [exact Hv|]. split; [exact Hn|].
    intros u Hin. apply Hu in Hin as (? & ? & _). auto.
  - intros. unfold main.
    destruct (crawl_sound E starting_url follow_external delay phone email
                fuel starting_url depth search_string initial)
      as (t & Ht & _ & Hn & _).
    rewrite Ht. exact Hn.
Qed.

(** C2.  With the depth limit [depth >= 0], every URL requested in a run
    lies fewer than [depth] link-hops from the seed (so none lies more than
    [depth] hops away); a task whose remaining depth is 0 returns at once,
    requesting nothing, and a task that goes on hands [depth - 1] to the
    tasks of its links. *)
Theorem no_fetch_beyond_depth :
  forall (E : env) (fuel : nat) (starting_url : string)
         (search_string : option string) (depth : Z)
         (follow_external : bool) (delay : Q) (phone email : bool),
    0 <= depth ->
    (forall u : string,
       u ∈ fetched (trace (snd (main E fuel starting_url search_string depth
                                  follow_external delay phone email))) ->
       exists k : nat,
         Z.of_nat k < depth /\
         hops E starting_url follow_external k starting_url u) /\
    (forall (url : string) (s : state),
       crawl E (S fuel) url starting_url 0 follow_external delay phone email
         search_string s = (Returned, s)) /\
    (forall (url : string) (s : state),
       depth <> 0 -> url ∉ visited_urls s ->
       crawl E (S fuel) url starting_url depth follow_external delay phone
         email search_string s
       = let '(html, s2) := fetch_html E url (entered url s) in
         if negb (truthy html) then (Returned, s2)
         else
           and_then (extract E url html phone email search_string)
             (with_result (get_links E html starting_url follow_external)
                (fun links =>
                   for_each_link delay
                     (fun link =>
                        crawl E fuel link starting_url (depth - 1)
                          follow_external delay phone email None)
                     (set_order E links))) s2).
Proof.
  intros E fuel starting_url search_string depth follow_external delay phone
    email Hpos.
  split; [|split].
  - intros u Hu. unfold main in Hu.
    destruct (crawl_sound E starting_url follow_external delay phone email
                fuel starting_url depth search_string initial)
      as (t & Ht & _ & _ & Hg).
    rewrite Ht in Hu. cbn [initial trace app] in Hu.
    apply Hg in Hu as (_ & _ & Hw). exact (Hw Hpos).
  - intros url s. apply crawl_skip. now left.
  - intros url s Hd Hv. now apply crawl_enter.
Qed.

Lemma no_fetch_beyond_depth_witness :
  0 <= 2 /\
  Scenario.p1 ∈
    fetched (trace (snd (main (Lib.world Scenario.site sorted_iteration) 5
                           Scenario.seed None 2 false 1 false false))) /\
  exists k : nat,
    Z.of_nat k < 2 /\
    hops (Lib.world Scenario.site sorted_iteration) Scenario.seed false k
      Scenario.seed Scenario.p1.
Proof.
  assert (Hin : Scenario.p1 ∈
    fetched (trace (snd (main (Lib.world Scenario.site sorted_iteration) 5
                           Scenario.seed None 2 false 1 false false)))).
  { vm_compute. right. left. }
  split; [lia|]. split; [exact Hin|].
  exact (proj1 (no_fetch_beyond_depth
                  (Lib.world Scenario.site sorted_iteration) 5 Scenario.seed
                  None 2 false 1 false false ltac:(lia))
           Scenario.p1 Hin).
Defined.

(** C10.  A page served with an empty body is treated like a failed
    request: [fetch_html] yields the empty string in both cases, and the
    task stops there with the URL marked visited, nothing extracted or
    reported for it and none of its links followed; the two runs differ
    only by the failure message. *)
Theorem empty_body_is_a_failed_fetch :
  forall (E : env) (fuel : nat) (url base_url : string) (depth : Z)
         (follow_external : bool) (delay : Q) (phone email : bool)
         (search_string : option string) (s : state),
    depth <> 0 -> url ∉ visited_urls s ->
    (requests_get E url = Body "" ->
       fst (fetch_html E url (entered url s)) = "" /\
       crawl E (S fuel) url base_url depth follow_external delay phone email
         search_string s
       = (Returned,
          State (visited_urls s ∪ {[url]})
            (trace s ++ [Crawling url; Get url]))) /\
    (forall msg : string,
       requests_get E url = RequestException msg ->
       fst (fetch_html E url (entered url s)) = "" /\
       crawl E (S fuel) url base_url depth follow_external delay phone email
         search_string s
       = (Returned,
          State (visited_urls s ∪ {[url]})
            (trace s ++ [Crawling url; Get url; FailedToFetch url msg]))).
Proof.
  intros E fuel url base_url depth follow_external delay phone email
    search_string s Hd Hv.
  split; [intros Hget | intros msg Hget].
  - assert (Hf : fetch_html E url (entered url s)
                 = ("", State (visited_urls s ∪ {[url]})
                          (trace s ++ [Crawling url; Get url]))).
    { unfold fetch_html, entered. rewrite Hget. cbn [visited_urls trace].
      now rewrite <- app_assoc. }
    split; [now rewrite Hf|].
    rewrite crawl_empty by (try assumption; now rewrite Hf).
    now rewrite Hf.
  - assert (Hf : fetch_html E url (entered url s)
                 = ("", State (visited_urls s ∪ {[url]})
                          (trace s ++ [Crawling url; Get url;
                                       FailedToFetch url msg]))).
    { unfold fetch_html, entered. rewrite Hget. cbn [visited_urls trace].
      now rewrite <- !app_assoc. }
    split; [now rewrite Hf|].
    rewrite crawl_empty by (try assumption; now rewrite Hf).
    now rewrite Hf.
Qed.

Lemma empty_body_is_a_failed_fetch_witness :
  (2 <> 0 /\ Scenario.seed ∉ visited_urls initial) /\
  (requests_get (Lib.world Scenario.blank_site sorted_iteration)
     Scenario.seed = Body "" /\
   requests_get (Lib.world [] sorted_iteration) Scenario.seed
   = RequestException "404 Client Error") /\
  main (Lib.world Scenario.blank_site sorted_iteration) 3 Scenario.seed
    (Some "needle") 2 false 1 true true
  = (Returned,
     State (∅ ∪ {[Scenario.seed]})
       [Crawling Scenario.seed; Get Scenario.seed]) /\
  main (Lib.world [] sorted_iteration) 3 Scenario.seed
    (Some "needle") 2 false 1 true true
  = (Returned,
     State (∅ ∪ {[Scenario.seed]})
       [Crawling Scenario.seed; Get Scenario.seed;
        FailedToFetch Scenario.seed "404 Client Error"]).
Proof.
  assert (Hd : 2 <> 0) by lia.
  assert (Hv : Scenario.seed ∉ visited_urls initial) by (cbn; set_solver).
  split; [split; assumption|]. split; [split; reflexivity|]. split.
  - exact (proj2 (proj1 (empty_body_is_a_failed_fetch
                    (Lib.world Scenario.blank_site sorted_iteration) 2
                    Scenario.seed Scenario.seed 2 false 1 true true
                    (Some "needle") initial Hd Hv) eq_refl)).
  - exact (proj2 (proj2 (empty_body_is_a_failed_fetch
                    (Lib.world [] sorted_iteration) 2
                    Scenario.seed Scenario.seed 2 false 1 true true
                    (Some "needle") initial Hd Hv) _ eq_refl)).
Defined.

(** The first reference that the URL library refuses makes the resolver
    raise. *)
Lemma add_links_raises (E : env) (base_url base_domain : string)
    (follow_external : bool) (ok : list string) (bad : string)
    (rest : list string) (e : exn) :
  (forall href, href ∈ ok ->
     exists u d, urljoin E base_url href = Value u /\
                 netloc E u = Value d) ->
  urljoin E base_url bad = Raises e ->
  forall links : gset string,
    add_links E base_url base_domain follow_external (ok ++ bad :: rest)
      links = Raises e.
Proof.
  intros Hok Hbad. induction ok as [|href ok IH]; intros links;
    cbn [app add_links].
  - now rewrite Hbad.
  - destruct (Hok href) as (u & d & -> & Hd); [left|].
    cbn [mbind result_bind]. rewrite Hd. cbn [mbind result_bind].
    apply IH. intros h Hh. apply Hok. now right.
Qed.

(** C9, as the code has it.  For a base URL whose host the URL library
    gives and a page each of whose references it resolves, the link
    resolver returns a set (each URL once, however often the page refers
    to it) that holds a resolved reference exactly when [follow_external]
    is set or its host equals the host of the base URL, as strings.  A
    reference the URL library refuses is not dropped: the first one makes
    the resolver raise the library's exception.  With base host a.com and
    [follow_external] off, a reference to https://b.com/x is left out and
    one to https://a.com/y is kept. *)
Theorem link_resolver_keeps_same_host :
  (forall (E : env) (html base_url base_domain : string)
          (follow_external : bool),
     netloc E base_url = Value base_domain ->
     (forall href, href ∈ anchor_hrefs E html ->
        exists u d, urljoin E base_url href = Value u /\
                    netloc E u = Value d) ->
     exists links : gset string,
       get_links E html base_url follow_external = Value links /\
       NoDup (set_order E links) /\
       forall u : string,
         u ∈ links <->
         exists href d : string,
           href ∈ anchor_hrefs E html /\
           urljoin E base_url href = Value u /\
           netloc E u = Value d /\
           (follow_external = true \/ d = base_domain)) /\
  (forall (E : env) (html base_url base_domain : string)
          (follow_external : bool) (ok : list string) (bad : string)
          (rest : list string) (e : exn),
     netloc E base_url = Value base_domain ->
     anchor_hrefs E html = ok ++ bad :: rest ->
     (forall href, href ∈ ok ->
        exists u d, urljoin E base_url href = Value u /\
                    netloc E u = Value d) ->
     urljoin E base_url bad = Raises e ->
     get_links E html base_url follow_external = Raises e) /\
  (forall o : iteration,
     Lib.netloc Scenario.seed = Value "a.com" /\
     Lib.netloc "https://b.com/x" = Value "b.com" /\
     Lib.netloc "https://a.com/y" = Value "a.com" /\
     Lib.anchor_hrefs Scenario.mixed_page
     = ["https://b.com/x"; "https://a.com/y"; "/y"; "https://www.a.com/z"] /\
     get_links (Lib.world [] o) Scenario.mixed_page Scenario.seed false
     = Value {[ "https://a.com/y" ]} /\
     get_links (Lib.world [] o) Scenario.mixed_page Scenario.seed true
     = Value {[ "https://b.com/x"; "https://a.com/y";
                "https://www.a.com/z" ]}).
Proof.
  split; [|split].
  - intros E html base_url base_domain follow_external Hb Hres.
    unfold get_links. rewrite Hb. cbn [mbind result_bind].
    destruct (add_links_total E base_url base_domain follow_external
                (anchor_hrefs E html) Hres ∅) as (links & Hl).
    exists links. split; [exact Hl|]. split; [apply order_NoDup|].
    intros u.
    rewrite (add_links_spec E base_url base_domain follow_external
               (anchor_hrefs E html) ∅ links Hl u).
    unfold kept. split; [intros [?|?]; [set_solver | assumption] | auto].
  - intros E html base_url base_domain follow_external ok bad rest e
      Hb Hrefs Hok Hbad.
    unfold get_links. rewrite Hb, Hrefs. cbn [mbind result_bind].
    now apply add_links_raises.
  - intros o. conjuncts; vm_compute; reflexivity.
Qed.

Lemma link_resolver_keeps_same_host_witness :
  Lib.netloc Scenario.seed = Value "a.com" /\
  (exists links : gset string,
     get_links (Lib.world [] sorted_iteration) Scenario.mixed_page
       Scenario.seed false = Value links /\
     "https://a.com/y" ∈ links /\ "https://b.com/x" ∉ links) /\
  netloc Scenario.bracket_world Scenario.seed = Value "a.com" /\
  anchor_hrefs Scenario.bracket_world Scenario.bracket_page
  = [Scenario.p1] ++ "//[" :: [] /\
  (forall href, href ∈ [Scenario.p1] ->
     exists u d,
       urljoin Scenario.bracket_world Scenario.seed href = Value u /\
       netloc Scenario.bracket_world u = Value d) /\
  urljoin Scenario.bracket_world Scenario.seed "//[" = Raises ValueError /\
  get_links Scenario.bracket_world Scenario.bracket_page Scenario.seed true
  = Raises ValueError.
Proof.
  split; [reflexivity|]. split.
  - destruct (proj1 link_resolver_keeps_same_host
                (Lib.world [] sorted_iteration) Scenario.mixed_page
                Scenario.seed "a.com" false eq_refl)
      as (links & Hl & _ & Hk).
    + intros href Hin. vm_compute in Hin.
      repeat (apply elem_of_cons in Hin as [-> | Hin]);
        [eexists _, _; split; vm_compute; reflexivity.. | inversion Hin].
    + exists links. split; [exact Hl|]. split.
      * apply Hk. exists "/y", "a.com".
        split; [vm_compute; do 2 right; left|].
        repeat split; try (vm_compute; reflexivity). now right.
      * intros Hin. apply Hk in Hin as (href & d & _ & _ & Hd & [Hf|Hd']).
        -- discriminate.
        -- subst d. vm_compute in Hd. discriminate.
  - assert (Hb : netloc Scenario.bracket_world Scenario.seed = Value "a.com")
      by (vm_compute; reflexivity).
    assert (Hrefs : anchor_hrefs Scenario.bracket_world Scenario.bracket_page
                    = [Scenario.p1] ++ "//[" :: [])
      by (vm_compute; reflexivity).
    assert (Hok : forall href, href ∈ [Scenario.p1] ->
              exists u d,
                urljoin Scenario.bracket_world Scenario.seed href = Value u /\
                netloc Scenario.bracket_world u = Value d).
    { intros href Hin. apply list_elem_of_singleton in Hin as ->.
      exists Scenario.p1, "a.com". split; vm_compute; reflexivity. }
    assert (Hbad : urljoin Scenario.bracket_world Scenario.seed "//["
                   = Raises ValueError) by (vm_compute; reflexivity).
    split; [exact Hb|]. split; [exact Hrefs|]. split; [exact Hok|].
    split; [exact Hbad|].
    exact (proj1 (proj2 link_resolver_keeps_same_host)
             Scenario.bracket_world Scenario.bracket_page Scenario.seed
             "a.com" true [Scenario.p1] "//[" [] ValueError Hb Hrefs Hok
             Hbad).
Defined.

(** C9 as stated fails: not every page markup gives a set.  On a page that
    holds the reference //[, which the URL library refuses, the link
    resolver returns nothing and raises, with [follow_external] off or
    on. *)
Lemma link_resolver_raises_on_a_refused_reference :
  anchor_hrefs Scenario.bracket_world Scenario.bracket_page
  = ["https://a.com/p1"; "//["] /\
  get_links Scenario.bracket_world Scenario.bracket_page Scenario.seed false
  = Raises ValueError /\
  get_links Scenario.bracket_world Scenario.bracket_page Scenario.seed true
  = Raises ValueError /\
  ~ (exists links : gset string,
       get_links Scenario.bracket_world Scenario.bracket_page Scenario.seed
         false = Value links).
Proof.
  assert (Hr : get_links Scenario.bracket_world Scenario.bracket_page
                 Scenario.seed false = Raises ValueError)
    by (vm_compute; reflexivity).
  split; [vm_compute; reflexivity|]. split; [exact Hr|].
  split; [vm_compute; reflexivity|].
  intros [links Hl]. rewrite Hr in Hl. discriminate.
Qed.

(** C3, as the code has it.  Seed https://a.com/, depth 1, the seed page
    linking to p1 (twice) and to p2: the resolver yields the two distinct
    links, the seed alone is requested, and p1 and p2 each get one task
    (after one delay each) that carries depth 0 and returns at once without
    a request, so no link of p1 or p2 is followed.  This holds whatever the
    iteration order and the extractors switched on. *)
Theorem depth_one_scenario :
  forall (o : iteration) (fuel : nat) (phone email : bool),
    get_links (Lib.world Scenario.site o) Scenario.seed_page Scenario.seed
      false = Value {[ Scenario.p1; Scenario.p2 ]} /\
    main (Lib.world Scenario.site o) (S (S fuel)) Scenario.seed None 1 false
      1 phone email
    = (Returned,
       State (∅ ∪ {[Scenario.seed]})
         [Crawling Scenario.seed; Get Scenario.seed; Sleep 1; Sleep 1]) /\
    fetched (trace (snd (main (Lib.world Scenario.site o) (S (S fuel))
                           Scenario.seed None 1 false 1 phone email)))
    = [Scenario.seed] /\
    (forall (u : string) (s : state),
       crawl (Lib.world Scenario.site o) (S fuel) u Scenario.seed (1 - 1)
         false 1 phone email None s = (Returned, s)).
Proof.
  intros o fuel phone email.
  assert (Hl : get_links (Lib.world Scenario.site o) Scenario.seed_page
                 Scenario.seed false
               = Value {[ Scenario.p1; Scenario.p2 ]})
    by (vm_compute; reflexivity).
  assert (Hrun : main (Lib.world Scenario.site o) (S (S fuel)) Scenario.seed
                   None 1 false 1 phone email
                 = (Returned,
                    State (∅ ∪ {[Scenario.seed]})
                      [Crawling Scenario.seed; Get Scenario.seed;
                       Sleep 1; Sleep 1])).
  { unfold main.
    rewrite (crawl_depth_one (Lib.world Scenario.site o) Scenario.seed false
               1 phone email fuel Scenario.seed Scenario.seed_page
               {[ Scenario.p1; Scenario.p2 ]} initial);
      try reflexivity; try exact Hl.
    cbn. set_solver. }
  split; [exact Hl|]. split; [exact Hrun|]. split.
  - rewrite Hrun. reflexivity.
  - intros u s. apply crawl_skip. now left.
Qed.

(** C3 as stated fails: at depth 1 there is no request beyond the seed. *)
Lemma depth_one_requests_the_seed_only :
  fetched (trace (snd (main (Lib.world Scenario.site sorted_iteration) 5
                         Scenario.seed None 1 false 1 false false)))
  = [Scenario.seed] /\
  ~ (fetched (trace (snd (main (Lib.world Scenario.site sorted_iteration) 5
                            Scenario.seed None 1 false 1 false false)))
     ≡ₚ [Scenario.seed; Scenario.p1; Scenario.p2]).
Proof.
  assert (H : fetched (trace (snd (main
                (Lib.world Scenario.site sorted_iteration) 5
                Scenario.seed None 1 false 1 false false)))
              = [Scenario.seed]) by (vm_compute; reflexivity).
  split; [exact H|]. rewrite H. intros Hp.
  apply Permutation_length in Hp. discriminate.
Qed.

(** The two requests the scenario describes take a depth of 2: then p1 and
    p2 are requested once each, and their own links are skipped. *)
Lemma depth_two_scenario :
  trace (snd (main (Lib.world Scenario.site sorted_iteration) 5
                Scenario.seed None 2 false 1 false false))
  = [Crawling Scenario.seed; Get Scenario.seed;
     Sleep 1; Crawling Scenario.p1; Get Scenario.p1; Sleep 1;
     Sleep 1; Crawling Scenario.p2; Get Scenario.p2; Sleep 1].
Proof. vm_compute. reflexivity. Qed.

(** C4: what the code does.  The link resolver is handed the URL the run
    started from, not the URL of the page at hand: the relative reference
    other.html on https://a.com/dir/page.html is resolved to
    https://a.com/other.html, which is then requested, whereas against the
    page's own URL it resolves to https://a.com/dir/other.html. *)
Theorem relative_links_resolve_against_the_seed :
  Lib.urljoin Scenario.inner "other.html"
  = Value "https://a.com/dir/other.html" /\
  Lib.urljoin Scenario.seed "other.html" = Value "https://a.com/other.html" /\
  fetched (trace (snd (main
             (Lib.world Scenario.relative_site sorted_iteration) 5
             Scenario.seed None 3 false 1 false false)))
  = [Scenario.seed; Scenario.inner; "https://a.com/other.html"].
Proof. conjuncts; vm_compute; reflexivity. Qed.

(** C5: what the code does.  The recursive call does not pass the pattern
    on.  In every run the custom extractor reports for the starting page
    only; in the run below the word is reported on the seed and not on the
    page the seed links to, although the extractor finds it there. *)
Theorem custom_pattern_stops_at_the_seed :
  (forall (E : env) (fuel : nat) (starting_url : string)
          (search_string : option string) (depth : Z)
          (follow_external : bool) (delay : Q) (phone email : bool),
     Forall (strings_about starting_url)
       (trace (snd (main E fuel starting_url search_string depth
                      follow_external delay phone email)))) /\
  find_strings "another needle" "needle" = Value [Re.FStr "needle"] /\
  trace (snd (main (Lib.world Scenario.needle_site sorted_iteration) 5
                Scenario.seed (Some "needle") 2 false 1 false false))
  = [Crawling Scenario.seed; Get Scenario.seed;
     Strings Scenario.seed [Re.FStr "needle"];
     Sleep 1; Crawling Scenario.p1; Get Scenario.p1].
Proof.
  split; [intros; apply strings_only_for_the_seed|].
  split; vm_compute; reflexivity.
Qed.

(** A negative depth never meets the guard [depth == 0]: nothing but the
    visited set stops the run, so the hypothesis of C2 is needed. *)
Lemma negative_depth_is_no_limit :
  fetched (trace (snd (main (Lib.world Scenario.site sorted_iteration) 5
                         Scenario.seed None (-1) false 1 false false)))
  = [Scenario.seed; Scenario.p1; "https://a.com/q1"; Scenario.p2;
     "https://a.com/q2"].
Proof. vm_compute. reflexivity. Qed.

End CrawlerFacts.

(** ** Further properties of the extractors *)

Module Extractors.

Import Chars Re Py Extract ReFacts ExtractFacts.

Lemma compile_phone :
  compile (Flags false true) phone_pattern = Parsed phone_compiled.
Proof. vm_compute. reflexivity. Qed.

Lemma compile_email :
  compile (Flags false false) email_pattern = Parsed email_compiled.
Proof. vm_compute. reflexivity. Qed.

Lemma compile_validation :
  compile (Flags false false) email_validation = Parsed validation_compiled.
Proof. vm_compute. reflexivity. Qed.

Lemma valid_numbers_iff (html : string) :
  exists numbers : gset string,
    valid_numbers html = Value numbers /\
    forall x, x ∈ numbers <->
      x ∈ map join (findall phone_compiled html) /\
      (digit_count x = 10%nat \/ digit_count x = 11%nat).
Proof.
  unfold valid_numbers. rewrite compile_phone.
  cbn [of_parsed mbind result_bind].
  destruct (add_valid_numbers_spec (findall phone_compiled html) ∅)
    as (numbers & -> & Hn).
  exists numbers. split; [reflexivity|]. intros x.
  rewrite Hn, phone_length_spec. set_solver.
Qed.

Lemma add_valid_emails_iff (matches : list found) :
  Forall is_str matches ->
  forall valid : gset string,
  exists emails : gset string,
    add_valid_emails matches valid = Value emails /\
    forall x, x ∈ emails <->
      x ∈ valid \/
      (FStr x ∈ matches /\ matches_prefix validation_compiled x = true).
Proof.
  intros Hs. induction Hs as [|m rest Hm _ IH]; intros valid;
    cbn [add_valid_emails].
  - exists valid. split; [reflexivity|]. intros x. split; [auto|].
    intros [?|[Hin _]]; [assumption | inversion Hin].
  - destruct m as [email|]; [|destruct Hm]. rewrite compile_validation.
    cbn [of_parsed mbind result_bind].
    destruct (IH (if matches_prefix validation_compiled email
                  then valid ∪ {[email]} else valid))
      as (emails & -> & He).
    exists emails. split; [reflexivity|]. intros x. rewrite He.
    rewrite elem_of_cons.
    destruct (matches_prefix validation_compiled email) eqn:Hm'.
    + rewrite elem_of_union, elem_of_singleton. split.
      * intros [[?| ->]|[? ?]]; auto.
      * intros [?|[[[= ->]|?] ?]]; auto.
    + split.
      * intros [?|[? ?]]; auto.
      * intros [?|[[[= ->]|?] ?]]; auto. congruence.
Qed.

Lemma valid_emails_iff (html : string) :
  exists emails : gset string,
    valid_emails html = Value emails /\
    forall x, x ∈ emails <->
      FStr x ∈ findall email_compiled html /\
      matches_prefix validation_compiled x = true.
Proof.
  unfold valid_emails. rewrite compile_email.
  cbn [of_parsed mbind result_bind].
  destruct (add_valid_emails_iff (findall email_compiled html)
              (findall_strings email_compiled html eq_refl) ∅)
    as (emails & -> & He).
  exists emails. split; [reflexivity|]. intros x. rewrite He. set_solver.
Qed.

(** X6.  The phone extractor returns a list without repetition that holds
    exactly the matches of its pattern, groups joined, that have 10 or 11
    digits; [phone_compiled] is what the pattern compiles to. *)
Theorem phone_numbers_once_and_all :
  compile (Flags false true) phone_pattern = Parsed phone_compiled /\
  forall (o : iteration) (html : string),
  exists l : list string,
    find_phone_numbers o html = Value l /\
    NoDup l /\
    forall x, x ∈ l <->
      x ∈ map join (findall phone_compiled html) /\
      (digit_count x = 10%nat \/ digit_count x = 11%nat).
Proof.
  split; [exact compile_phone|].
  intros o html. unfold find_phone_numbers.
  destruct (valid_numbers_iff html) as (numbers & -> & Hn).
  cbn [mbind result_bind]. exists (order o numbers).
  split; [reflexivity|]. split; [apply order_NoDup|].
  intros x. rewrite <- Hn. apply order_elem.
Qed.

(** X7.  The email extractor returns a list without repetition that holds
    exactly the matches of the scanning pattern that the anchored pattern
    accepts; [email_compiled] and [validation_compiled] are what the two
    patterns compile to. *)
Theorem email_addresses_once_and_all :
  compile (Flags false false) email_pattern = Parsed email_compiled /\
  compile (Flags false false) email_validation = Parsed validation_compiled /\
  forall (o : iteration) (html : string),
  exists l : list string,
    find_email_addresses o html = Value l /\
    NoDup l /\
    forall x, x ∈ l <->
      FStr x ∈ findall email_compiled html /\
      matches_prefix validation_compiled x = true.
Proof.
  split; [exact compile_email|]. split; [exact compile_validation|].
  intros o html. unfold find_email_addresses.
  destruct (valid_emails_iff html) as (emails & -> & He).
  cbn [mbind result_bind]. exists (order o emails).
  split; [reflexivity|]. split; [apply order_NoDup|].
  intros x. rewrite <- He. apply order_elem.
Qed.

(** Every match the scan reports is a piece of the text. *)
Lemma scan_matched_infix (ic : bool) (r : regex) (text : list ascii) :
  forall (prev : option ascii) (skip : nat) (w : list ascii)
         (ms : list (option (list ascii))),
    Matched w ms ∈ scan ic r prev text skip ->
    exists a b, text = a ++ w ++ b.
Proof.
  assert (Hhere : forall prev text w ms,
            Matched w ms ∈ fst (matches_at ic r (MState prev text [])) ->
            exists a b, text = a ++ w ++ b).
  { intros prev txt w ms. unfold matches_at.
    destruct (attempt ic r false (MState prev txt [])) as [st1|];
      [|intros Hin; inversion Hin].
    assert (Hc : forall st', exists b, txt = consumed (MState prev txt []) st'
                                             ++ b).
    { intros st'. unfold consumed. cbn [ahead].
      eexists. symmetry. apply take_drop. }
    destruct (consumed (MState prev txt []) st1) as [|c w1] eqn:Hw.
    - destruct (attempt ic r true (MState prev txt [])) as [st2|];
        cbn [fst].
      + intros Hin. apply elem_of_cons in Hin as [[= -> ->]|Hin].
        * exists [], txt. reflexivity.
        * apply list_elem_of_singleton in Hin as [= -> ->].
          destruct (Hc st2) as (b & Hb). exists [], b. exact Hb.
      + intros Hin. apply list_elem_of_singleton in Hin as [= -> ->].
        exists [], txt. reflexivity.
    - cbn [fst]. intros Hin. apply list_elem_of_singleton in Hin as [= -> ->].
      destruct (Hc st1) as (b & Hb). exists [], b. rewrite Hw in Hb.
      exact Hb. }
  induction text as [|c tl IH]; intros prev skip w ms Hin.
  - destruct skip; cbn [scan] in Hin; [|inversion Hin].
    destruct (matches_at ic r (MState prev [] [])) as [ps n] eqn:Hm.
    rewrite app_nil_r in Hin.
    apply (Hhere prev [] w ms). now rewrite Hm.
  - destruct skip as [|k]; cbn [scan] in Hin.
    + destruct (matches_at ic r (MState prev (c :: tl) [])) as [ps n] eqn:Hm.
      apply elem_of_app in Hin as [Hin|Hin].
      * apply (Hhere prev (c :: tl) w ms). now rewrite Hm.
      * assert (Htl : exists k', Matched w ms ∈ scan ic r (Some c) tl k').
        { destruct n; [|eauto].
          apply elem_of_cons in Hin as [Hin|Hin]; [discriminate | eauto]. }
        destruct Htl as (k' & Hk'). apply IH in Hk' as (a & b & ->).
        exists (c :: a), b. reflexivity.
    + apply IH in Hin as (a & b & ->). exists (c :: a), b. reflexivity.
Qed.

Lemma string_of_list_ascii_app (a b : list ascii) :
  string_of_list_ascii (a ++ b)
  = String.append (string_of_list_ascii a) (string_of_list_ascii b).
Proof. induction a as [|c a IH]; cbn; [reflexivity | now rewrite IH]. Qed.

(** X8.  Every address the email extractor returns stands in the text. *)
Theorem email_addresses_stand_in_the_text :
  forall (o : iteration) (html : string) (l : list string) (x : string),
    find_email_addresses o html = Value l -> x ∈ l ->
    exists pre post : string,
      html = String.append pre (String.append x post).
Proof.
  intros o html l x Hl Hx. unfold find_email_addresses in Hl.
  destruct (valid_emails_iff html) as (emails & He & Hin).
  rewrite He in Hl. cbn [mbind result_bind] in Hl. injection Hl as <-.
  apply order_elem, Hin in Hx as [Hx _].
  unfold findall in Hx. apply list_elem_of_omap in Hx as (pc & Hpc & Hitem).
  destruct pc as [|w ms]; [discriminate|].
  cbn in Hitem. injection Hitem as <-.
  apply scan_matched_infix in Hpc as (a & b & Hab).
  exists (string_of_list_ascii a), (string_of_list_ascii b).
  rewrite <- !string_of_list_ascii_app, <- Hab.
  symmetry. apply string_of_list_ascii_of_string.
Qed.

Lemma email_addresses_stand_in_the_text_witness :
  find_email_addresses sorted_iteration Scenario.contact_page
  = Value ["bob@example.com"] /\
  "bob@example.com" ∈ ["bob@example.com"] /\
  exists pre post : string,
    Scenario.contact_page
    = String.append pre (String.append "bob@example.com" post).
Proof.
  assert (Hl : find_email_addresses sorted_iteration Scenario.contact_page
               = Value ["bob@example.com"]) by (vm_compute; reflexivity).
  assert (Hx : "bob@example.com" ∈ ["bob@example.com"]) by left.
  split; [exact Hl|]. split; [exact Hx|].
  exact (email_addresses_stand_in_the_text sorted_iteration
           Scenario.contact_page ["bob@example.com"] "bob@example.com"
           Hl Hx).
Defined.

End Extractors.

(** ** Further properties of the crawl engine *)

Module Runs.

Import Py Extract Crawler ReFacts ExtractFacts CrawlerFacts Extractors.

(** What [get_links] returns holds kept references only. *)
Lemma get_links_kept (E : env) (html base_url : string)
    (follow_external : bool) (links : gset string) :
  get_links E html base_url follow_external = Value links ->
  exists base_domain : string,
    netloc E base_url = Value base_domain /\
    forall u, u ∈ links <->
      kept E base_url base_domain follow_external (anchor_hrefs E html) u.
Proof.
  unfold get_links. destruct (netloc E base_url) as [bd| |]; try discriminate.
  cbn [mbind result_bind]. intros Hl. exists bd. split; [reflexivity|].
  intros u. rewrite (add_links_spec E base_url bd follow_external _ _ _ Hl u).
  split; [intros [?|?]; [set_solver | assumption] | auto].
Qed.

(** Every URL a task requests is reached from the task's URL by links the
    resolver kept, whatever the depth limit. *)
Lemma crawl_follows_links (E : env) (base_url : string)
    (follow_external : bool) (delay : Q) (phone email : bool) (fuel : nat) :
  forall (url : string) (depth : Z) (search_string : option string),
    sound (fun u => exists k, hops E base_url follow_external k url u)
      (crawl E fuel url base_url depth follow_external delay phone email
         search_string).
Proof.
  induction fuel as [|fuel IH]; intros url depth search_string s.
  - apply grows_refl.
  - destruct (decide (depth = 0 \/ url ∈ visited_urls s)) as [Hskip|Hgo].
    + rewrite crawl_skip by exact Hskip. apply grows_refl.
    + assert (Hv : url ∉ visited_urls s) by tauto.
      rewrite crawl_enter by tauto. unfold fetch_html, entered.
      cbn [visited_urls trace].
      assert (Hreq : forall t', fetched t' = [] ->
        grows (fun u => exists k, hops E base_url follow_external k url u) s
          (State (visited_urls s ∪ {[url]})
             (((trace s ++ [Crawling url]) ++ [Get url]) ++ t'))).
      { intros t' Ht'. exists ([Crawling url; Get url] ++ t').
        cbn [trace visited_urls].
        split; [now rewrite <- !app_assoc|]. split; [set_solver|].
        rewrite fetched_app, Ht'. cbn. split; [apply NoDup_singleton|].
        intros u Hu. apply list_elem_of_singleton in Hu as ->.
        split; [assumption|]. split; [set_solver|].
        exists O. constructor. }
      assert (Hreq0 := Hreq [] eq_refl). rewrite app_nil_r in Hreq0.
      destruct (requests_get E url) as [html|msg] eqn:Hget.
      * destruct (truthy html) eqn:Hh; cbn [negb snd]; [|exact Hreq0].
        eapply grows_trans; [exact Hreq0|].
        apply sound_and_then; [apply sound_quiet, quiet_extract|].
        apply sound_with_result. intros links Hl.
        apply sound_for_each_link. intros link Hlink s'.
        eapply grows_weaken; [|apply IH].
        intros u (k & Hhops). exists (S k).
        eapply hops_next; eauto.
        apply (order_elem (set_order E) links link), Hlink.
      * cbn [negb truthy snd visited_urls trace].
        exact (Hreq [FailedToFetch url msg] eq_refl).
Qed.

(** X1.  Every URL requested in a run is the starting URL or is reached from
    it through links the resolver kept on pages that were served. *)
Theorem requests_follow_links :
  forall (E : env) (fuel : nat) (starting_url : string)
         (search_string : option string) (depth : Z)
         (follow_external : bool) (delay : Q) (phone email : bool)
         (u : string),
    u ∈ fetched (trace (snd (main E fuel starting_url search_string depth
                               follow_external delay phone email))) ->
    exists k : nat, hops E starting_url follow_external k starting_url u.
Proof.
  intros E fuel starting_url search_string depth follow_external delay phone
    email u Hu. unfold main in Hu.
  destruct (crawl_follows_links E starting_url follow_external delay phone
              email fuel starting_url depth search_string initial)
    as (t & Ht & _ & _ & Hg).
  rewrite Ht in Hu. cbn [initial trace app] in Hu.
  now apply Hg in Hu as (_ & _ & Hw).
Qed.

Lemma hops_same_host (E : env) (base_url : string) (k : nat)
    (url u : string) :
  hops E base_url false k url u -> u = url \/ same_host E base_url u.
Proof.
  induction 1 as [u | k u v w html links Hget Hh Hl Hv Hhops IH];
    [now left | right].
  destruct IH as [-> | Hs]; [|exact Hs].
  apply get_links_kept in Hl as (bd & Hbd & Hk).
  apply Hk in Hv as (href & d & _ & _ & Hd & [Hf | ->]); [discriminate|].
  now exists bd.
Qed.

(** X2.  Without follow_external no URL is requested whose host differs from
    the host of the starting URL (the starting URL itself apart). *)
Theorem stays_on_host :
  forall (E : env) (fuel : nat) (starting_url : string)
         (search_string : option string) (depth : Z) (delay : Q)
         (phone email : bool) (u : string),
    u ∈ fetched (trace (snd (main E fuel starting_url search_string depth
                               false delay phone email))) ->
    u = starting_url \/ same_host E starting_url u.
Proof.
  intros E fuel starting_url search_string depth delay phone email u Hu.
  unfold main in Hu.
  destruct (crawl_follows_links E starting_url false delay phone
              email fuel starting_url depth search_string initial)
    as (t & Ht & _ & _ & Hg).
  rewrite Ht in Hu. cbn [initial trace app] in Hu.
  apply Hg in Hu as (_ & _ & (k & Hw)).
  eapply hops_same_host; eauto.
Qed.

Lemma tallies_quiet (a : step) : quiet a -> tallies a.
Proof.
  intros Ha s. destruct (Ha s) as (t & -> & Ht). exists t.
  cbn [trace visited_urls]. rewrite Ht. cbn. split; [reflexivity|].
  set_solver.
Qed.

Lemma tallies_and_then (a b : step) : tallies a -> tallies b -> tallies (and_then a b).
Proof.
  intros Ha Hb s. unfold and_then. destruct (Ha s) as (ta & Hta & Hva).
  destruct (a s) as [[| | |] sa]; cbn [snd] in *; try (now exists ta).
  destruct (Hb sa) as (tb & Htb & Hvb). exists (ta ++ tb).
  rewrite Htb, Hta, Hvb, Hva, app_assoc, fetched_app, list_to_set_app_L.
  split; [reflexivity | set_solver].
Qed.

Lemma tallies_with_result {A} (r : result A) (k : A -> step) :
  (forall a, tallies (k a)) -> tallies (with_result r k).
Proof.
  intros Hk s. unfold with_result.
  destruct r; [apply Hk | exists []; cbn; rewrite app_nil_r; split;
                          [reflexivity | set_solver]..].
Qed.

Lemma tallies_for_each_link (delay : Q) (visit : string -> step)
    (todo : list string) :
  (forall link, tallies (visit link)) ->
  tallies (for_each_link delay visit todo).
Proof.
  intros Hv. induction todo as [|link rest IH]; cbn [for_each_link].
  - apply tallies_quiet, quiet_ret.
  - apply tallies_and_then; [apply tallies_quiet, quiet_sleep|].
    apply tallies_and_then; [apply Hv | exact IH].
Qed.

Lemma crawl_tallies (E : env) (base_url : string) (follow_external : bool)
    (delay : Q) (phone email : bool) (fuel : nat) :
  forall (url : string) (depth : Z) (search_string : option string),
    tallies (crawl E fuel url base_url depth follow_external delay phone
               email search_string).
Proof.
  induction fuel as [|fuel IH]; intros url depth search_string s.
  - exists []. cbn. rewrite app_nil_r. split; [reflexivity | set_solver].
  - destruct (decide (depth = 0 \/ url ∈ visited_urls s)) as [Hskip|Hgo].
    + rewrite crawl_skip by exact Hskip. exists []. cbn. rewrite app_nil_r.
      split; [reflexivity | set_solver].
    + rewrite crawl_enter by tauto. unfold fetch_html, entered.
      cbn [visited_urls trace].
      destruct (requests_get E url) as [html|msg].
      * destruct (negb (truthy html)).
        -- exists [Crawling url; Get url]. cbn [snd trace visited_urls].
           rewrite <- app_assoc. split; [reflexivity|]. cbn. set_solver.
        -- match goal with |- context [and_then ?a ?b ?s2] =>
             destruct (tallies_and_then a b) with (s := s2)
               as (t1 & Ht1 & Hv1)
           end.
           ++ apply tallies_quiet, quiet_extract.
           ++ apply tallies_with_result. intros links.
              apply tallies_for_each_link. intros link. apply IH.
           ++ exists ([Crawling url; Get url] ++ t1).
              rewrite Ht1, Hv1. cbn [trace visited_urls].
              rewrite <- !app_assoc, fetched_app. split; [reflexivity|].
              cbn. set_solver.
      * exists [Crawling url; Get url; FailedToFetch url msg].
        cbn [snd trace visited_urls negb truthy]. rewrite <- !app_assoc.
        split; [reflexivity|]. cbn. set_solver.
Qed.

(** X3.  After a run [visited_urls] is exactly the set of the URLs that were
    requested. *)
Theorem visited_is_what_was_requested :
  forall (E : env) (fuel : nat) (starting_url : string)
         (search_string : option string) (depth : Z)
         (follow_external : bool) (delay : Q) (phone email : bool),
    visited_urls (snd (main E fuel starting_url search_string depth
                         follow_external delay phone email))
    = list_to_set
        (fetched (trace (snd (main E fuel starting_url search_string depth
                                follow_external delay phone email)))).
Proof.
  intros. unfold main.
  destruct (crawl_tallies E starting_url follow_external delay phone email fuel
              starting_url depth search_string initial) as (t & Ht & Hv).
  rewrite Hv, Ht. cbn [initial visited_urls trace app]. set_solver.
Qed.

(** A task that is not stopped by the depth limit leaves its URL visited. *)
Lemma crawl_marks_visited (E : env) (base_url : string)
    (follow_external : bool) (delay : Q) (phone email : bool) (fuel : nat)
    (url : string) (depth : Z) (search_string : option string) (s : state) :
  depth <> 0 ->
  url ∈ visited_urls
          (snd (crawl E (S fuel) url base_url depth follow_external delay
                  phone email search_string s)).
Proof.
  intros Hd.
  destruct (crawl_tallies E base_url follow_external delay phone email (S fuel)
              url depth search_string s) as (t & Ht & Hv).
  destruct (decide (url ∈ visited_urls s)) as [Hin|Hout].
  - rewrite Hv. set_solver.
  - rewrite Hv. assert (Hu : url ∈ fetched t); [|set_solver].
    rewrite crawl_enter in Ht by assumption.
    unfold fetch_html, entered in Ht. cbn [visited_urls trace] in Ht.
    assert (Hpre : exists t', t = [Crawling url; Get url] ++ t').
    { destruct (requests_get E url) as [html|msg].
      - destruct (negb (truthy html)).
        + cbn [snd trace] in Ht. rewrite <- app_assoc in Ht.
          apply app_inv_head in Ht. exists []. now rewrite app_nil_r.
        + match type of Ht with context [and_then ?a ?b ?s2] =>
            destruct (tallies_and_then a b) with (s := s2)
              as (t1 & Ht1 & _)
          end.
          * apply tallies_quiet, quiet_extract.
          * apply tallies_with_result. intros links.
            apply tallies_for_each_link. intros link. apply crawl_tallies.
          * rewrite Ht1 in Ht. cbn [trace] in Ht.
            rewrite <- !app_assoc in Ht. apply app_inv_head in Ht.
            now exists t1.
      - cbn [snd trace negb truthy] in Ht. rewrite <- !app_assoc in Ht.
        apply app_inv_head in Ht. now exists [FailedToFetch url msg]. }
    destruct Hpre as (t' & ->). cbn. set_solver.
Qed.

(** X4.  Once a URL has been crawled, crawling it again in the same process
    does nothing, whatever the arguments of the second call. *)
Theorem second_crawl_does_nothing :
  forall (E : env) (fuel fuel' : nat) (url base_url base_url' : string)
         (depth depth' : Z) (follow_external follow_external' : bool)
         (delay delay' : Q) (phone email phone' email' : bool)
         (search_string search_string' : option string) (s : state),
    depth <> 0 ->
    crawl E (S fuel') url base_url' depth' follow_external' delay' phone'
      email' search_string'
      (snd (crawl E (S fuel) url base_url depth follow_external delay phone
              email search_string s))
    = (Returned,
       snd (crawl E (S fuel) url base_url depth follow_external delay phone
              email search_string s)).
Proof.
  intros. apply crawl_skip. right. now apply crawl_marks_visited.
Qed.

Section Pace.
Variable delay : Q.

Lemma polite_app (t1 t2 : list event) : forall prev,
  polite delay prev (t1 ++ t2) <->
  polite delay prev t1 /\ polite delay (last_event prev t1) t2.
Proof.
  induction t1 as [|e t1 IH]; intros prev; cbn [app polite].
  - unfold last_event. cbn. tauto.
  - rewrite IH. unfold last_event. rewrite last_cons.
    destruct (last t1); tauto.
Qed.

Lemma polite_before_task (pre post : list event) (e : event) (u : string) :
  forall prev,
    polite delay prev (pre ++ e :: Crawling u :: post) -> e = Sleep delay.
Proof.
  induction pre as [|e0 pre IH]; intros prev; cbn [app polite].
  - intros (_ & Hu & _). specialize (Hu u eq_refl). congruence.
  - intros (_ & H). eapply IH, H.
Qed.

Lemma paced_ret : paced delay ret.
Proof. intros s. exists []. now rewrite app_nil_r. Qed.

Lemma paced_emit (e : event) :
  (forall u, e <> Crawling u) -> paced delay (emit e).
Proof.
  intros He s. exists [e]. split; [reflexivity|]. intros prev. cbn.
  split; [|exact I]. intros u Hu. now apply He in Hu.
Qed.

Lemma paced_and_then (a b : step) :
  paced delay a -> paced delay b -> paced delay (and_then a b).
Proof.
  intros Ha Hb s. unfold and_then. destruct (Ha s) as (ta & Hta & Hpa).
  destruct (a s) as [[| | |] sa]; cbn [snd] in *; try (now exists ta).
  destruct (Hb sa) as (tb & Htb & Hpb). exists (ta ++ tb).
  rewrite Htb, Hta, app_assoc. split; [reflexivity|].
  intros prev. apply polite_app. auto.
Qed.

Lemma paced_with_result {A} (r : result A) (k : A -> step) :
  (forall a, paced delay (k a)) -> paced delay (with_result r k).
Proof.
  intros Hk s. unfold with_result.
  destruct r; [apply Hk | exists []; now rewrite app_nil_r..].
Qed.

Lemma paced_extract (E : env) (url html : string) (phone email : bool)
    (search_string : option string) :
  paced delay (extract E url html phone email search_string).
Proof.
  unfold extract, when, report_phone, report_email, report_strings.
  repeat apply paced_and_then.
  - destruct phone; [|apply paced_ret].
    apply paced_with_result. intros l.
    destruct (nonempty l); [|apply paced_ret].
    apply paced_with_result. intros l'.
    destruct (nonempty l'); [now apply paced_emit | apply paced_ret].
  - destruct email; [|apply paced_ret].
    apply paced_with_result. intros l.
    destruct (nonempty l); [now apply paced_emit | apply paced_ret].
  - destruct search_string as [pat|]; [|apply paced_ret].
    destruct (truthy pat); [|apply paced_ret].
    apply paced_with_result. intros l.
    destruct (nonempty l); [now apply paced_emit | apply paced_ret].
Qed.

Lemma after_sleep_then (a b : step) :
  after_sleep delay a -> paced delay b -> after_sleep delay (and_then a b).
Proof.
  intros Ha Hb s. unfold and_then. destruct (Ha s) as (ta & Hta & Hpa).
  destruct (a s) as [[| | |] sa]; cbn [snd] in *; try (now exists ta).
  destruct (Hb sa) as (tb & Htb & Hpb). exists (ta ++ tb).
  rewrite Htb, Hta, app_assoc. split; [reflexivity|].
  apply polite_app. auto.
Qed.

Lemma paced_sleep_then (b : step) :
  after_sleep delay b -> paced delay (and_then (sleep delay) b).
Proof.
  intros Hb s. unfold and_then, sleep. destruct (Qle_bool 0 delay).
  - cbn [emit]. destruct (Hb (State (visited_urls s)
                                (trace s ++ [Sleep delay])))
      as (tb & Htb & Hpb).
    exists (Sleep delay :: tb). rewrite Htb. cbn [trace].
    rewrite <- app_assoc. split; [reflexivity|].
    intros prev. cbn [polite]. split; [discriminate | exact Hpb].
  - exists []. now rewrite app_nil_r.
Qed.

Lemma paced_for_each_link (visit : string -> step) (todo : list string) :
  (forall link, after_sleep delay (visit link)) ->
  paced delay (for_each_link delay visit todo).
Proof.
  intros Hv. induction todo as [|link rest IH]; cbn [for_each_link].
  - apply paced_ret.
  - apply paced_sleep_then, after_sleep_then; [apply Hv | exact IH].
Qed.

Lemma crawl_after_sleep (E : env) (base_url : string)
    (follow_external : bool) (phone email : bool) (fuel : nat) :
  forall (url : string) (depth : Z) (search_string : option string),
    after_sleep delay
      (crawl E fuel url base_url depth follow_external delay phone email
         search_string).
Proof.
  induction fuel as [|fuel IH]; intros url depth search_string s.
  - exists []. now rewrite app_nil_r.
  - destruct (decide (depth = 0 \/ url ∈ visited_urls s)) as [Hskip|Hgo].
    + rewrite crawl_skip by exact Hskip. exists []. now rewrite app_nil_r.
    + rewrite crawl_enter by tauto. unfold fetch_html, entered.
      cbn [visited_urls trace].
      destruct (requests_get E url) as [html|msg].
      * destruct (negb (truthy html)).
        -- exists [Crawling url; Get url]. cbn [snd trace].
           rewrite <- app_assoc. split; [reflexivity|].
           cbn. repeat split; intros; discriminate || reflexivity.
        -- match goal with |- context [and_then ?a ?b ?s2] =>
             destruct (paced_and_then a b) with (s := s2)
               as (t1 & Ht1 & Hp1)
           end.
           ++ apply paced_extract.
           ++ apply paced_with_result. intros links.
              apply paced_for_each_link. intros link. apply IH.
           ++ exists ([Crawling url; Get url] ++ t1).
              rewrite Ht1. cbn [trace]. rewrite <- !app_assoc.
              split; [reflexivity|]. cbn [app polite].
              split; [reflexivity|]. split; [discriminate | apply Hp1].
      * exists [Crawling url; Get url; FailedToFetch url msg].
        cbn [snd trace negb truthy]. rewrite <- !app_assoc.
        split; [reflexivity|].
        cbn. repeat split; intros; discriminate || reflexivity.
Qed.
End Pace.

(** X5.  In a run, every page but the first is entered right after the
    delay: the event before each [Crawling] is [Sleep delay]. *)
Theorem delay_before_every_other_page :
  forall (E : env) (fuel : nat) (starting_url : string)
         (search_string : option string) (depth : Z)
         (follow_external : bool) (delay : Q) (phone email : bool)
         (pre post : list event) (e : event) (u : string),
    trace (snd (main E fuel starting_url search_string depth follow_external
                  delay phone email))
    = pre ++ e :: Crawling u :: post ->
    e = Sleep delay.
Proof.
  intros E fuel starting_url search_string depth follow_external delay phone
    email pre post e u Ht. unfold main in Ht.
  destruct (crawl_after_sleep delay E starting_url follow_external phone
              email fuel starting_url depth search_string initial)
    as (t & Ht' & Hp).
  rewrite Ht in Ht'. cbn [initial trace app] in Ht'. subst t.
  eapply polite_before_task, Hp.
Qed.

(** The filter of line 153 keeps every number the extractor returned. *)
Lemma report_phone_value (E : env) (url html : string) (s : state) :
  exists l : list string,
    find_phone_numbers (set_order E) html = Value l /\
    report_phone E url html s
    = (Returned,
       if nonempty l
       then State (visited_urls s) (trace s ++ [PhoneNumbers url l])
       else s).
Proof.
  unfold report_phone, find_phone_numbers.
  destruct (valid_numbers_spec html) as (numbers & -> & Hn).
  cbn [mbind result_bind with_result]. exists (set_order E numbers).
  split; [reflexivity|].
  assert (Hall : Forall (fun x => phone_length (digit_count x) = true)
                   (set_order E numbers)).
  { apply Forall_forall. intros x Hx. apply phone_length_spec, Hn.
    exact (proj1 (order_elem (set_order E) numbers x) Hx). }
  destruct (nonempty (set_order E numbers)) eqn:Hne; [|reflexivity].
  match goal with |- context [with_result (?keep ?l) _] =>
    assert (Hkeep : keep l = Value l)
  end.
  { clear Hne. induction Hall as [|x l Hx _ IH]; [reflexivity|].
    rewrite has_phone_length_value. cbn [mbind result_bind].
    rewrite IH. cbn [mbind result_bind]. now rewrite Hx. }
  rewrite Hkeep. cbn [with_result]. rewrite Hne. reflexivity.
Qed.

(** X9.  What is reported as phone numbers for a page is the extractor's
    result as it stands. *)
Theorem reported_numbers_are_the_extractor_result :
  forall (E : env) (url html : string) (s : state),
  exists l : list string,
    find_phone_numbers (set_order E) html = Value l /\
    report_phone E url html s
    = (Returned,
       if nonempty l
       then State (visited_urls s) (trace s ++ [PhoneNumbers url l])
       else s).
Proof. intros. apply report_phone_value. Qed.

Lemma report_email_value (E : env) (url html : string) (s : state) :
  exists l : list string,
    find_email_addresses (set_order E) html = Value l /\
    report_email E url html s
    = (Returned,
       if nonempty l
       then State (visited_urls s) (trace s ++ [EmailAddresses url l])
       else s).
Proof.
  unfold report_email, find_email_addresses.
  destruct (valid_emails_iff html) as (emails & -> & _).
  cbn [mbind result_bind with_result]. exists (set_order E emails).
  split; [reflexivity|].
  destruct (nonempty (set_order E emails)); reflexivity.
Qed.

(** The phone and email reports return, request nothing and leave
    [visited_urls] alone. *)
Lemma reports_return (E : env) (url html : string) (phone email : bool)
    (s : state) :
  exists t : list event,
    fetched t = [] /\
    and_then (when phone (report_phone E url html))
      (when email (report_email E url html)) s
    = (Returned, State (visited_urls s) (trace s ++ t)).
Proof.
  unfold and_then, when.
  assert (Hs : forall s0 : state,
            s0 = State (visited_urls s0) (trace s0 ++ []))
    by apply same_state.
  destruct phone.
  - destruct (report_phone_value E url html s) as (l & _ & ->).
    destruct email.
    + destruct (report_email_value E url html
                  (if nonempty l
                   then State (visited_urls s)
                          (trace s ++ [PhoneNumbers url l])
                   else s)) as (l' & _ & ->).
      destruct (nonempty l), (nonempty l'); cbn [visited_urls trace].
      * exists [PhoneNumbers url l; EmailAddresses url l'].
        now rewrite <- app_assoc.
      * now exists [PhoneNumbers url l].
      * now exists [EmailAddresses url l'].
      * exists []. split; [reflexivity|]. f_equal. apply Hs.
    + destruct (nonempty l); cbn [ret].
      * now exists [PhoneNumbers url l].
      * exists []. split; [reflexivity|]. f_equal. apply Hs.
  - destruct email; cbn [ret].
    + destruct (report_email_value E url html s) as (l' & _ & ->).
      destruct (nonempty l').
      * now exists [EmailAddresses url l'].
      * exists []. split; [reflexivity|]. f_equal. apply Hs.
    + exists []. split; [reflexivity|]. f_equal. apply Hs.
Qed.

Lemma and_then_assoc (a b c : step) (s : state) :
  and_then a (and_then b c) s = and_then (and_then a b) c s.
Proof.
  unfold and_then. destruct (a s) as [[| | |] s1]; try reflexivity.
Qed.

Lemma extract_bad_pattern (E : env) (url html pat : string)
    (phone email : bool) (s : state) :
  truthy pat = true ->
  Re.compile (Re.Flags true false) pat = Re.ReError ->
  exists t : list event,
    fetched t = [] /\
    extract E url html phone email (Some pat) s
    = (Raised re_error, State (visited_urls s) (trace s ++ t)).
Proof.
  intros Hp Hc. unfold extract. rewrite and_then_assoc.
  destruct (reports_return E url html phone email s) as (t & Ht & Hr).
  unfold and_then at 1. rewrite Hr. exists t. split; [exact Ht|].
  rewrite Hp. unfold when, report_strings, find_strings, with_result.
  now rewrite Hc.
Qed.

(** X10.  A pattern the engine rejects is found out only when the first page
    has been fetched: the run then stops on [re.error], with the starting
    URL requested and visited. *)
Theorem bad_pattern_raises_after_the_first_request :
  forall (E : env) (fuel : nat) (starting_url pat html : string)
         (depth : Z) (follow_external : bool) (delay : Q)
         (phone email : bool),
    depth <> 0 ->
    requests_get E starting_url = Body html -> truthy html = true ->
    truthy pat = true ->
    Re.compile (Re.Flags true false) pat = Re.ReError ->
    fst (main E (S fuel) starting_url (Some pat) depth follow_external delay
           phone email) = Raised re_error /\
    fetched (trace (snd (main E (S fuel) starting_url (Some pat) depth
                           follow_external delay phone email)))
    = [starting_url] /\
    visited_urls (snd (main E (S fuel) starting_url (Some pat) depth
                         follow_external delay phone email))
    = {[starting_url]}.
Proof.
  intros E fuel starting_url pat html depth follow_external delay phone email
    Hd Hget Hh Hp Hc.
  unfold main. rewrite crawl_enter by (try assumption; cbn; set_solver).
  unfold fetch_html, entered. rewrite Hget. cbn [visited_urls trace initial].
  rewrite Hh. cbn [negb]. unfold and_then.
  match goal with |- context [extract E _ _ _ _ _ ?s2] =>
    destruct (extract_bad_pattern E starting_url html pat phone email s2
                Hp Hc) as (t & Ht & ->)
  end.
  cbn [fst snd trace visited_urls]. rewrite !fetched_app, Ht.
  split; [reflexivity|]. split; [reflexivity|]. set_solver.
Qed.

(** X11.  An anchor the URL library refuses to resolve is not skipped: the
    exception leaves the link resolver and stops the run, the page having
    been requested. *)
Theorem unresolvable_link_stops_the_run :
  forall (E : env) (fuel : nat) (starting_url html base_domain : string)
         (ok : list string) (bad : string) (rest : list string) (e : exn)
         (depth : Z) (follow_external : bool) (delay : Q)
         (phone email : bool),
    depth <> 0 ->
    requests_get E starting_url = Body html -> truthy html = true ->
    netloc E starting_url = Value base_domain ->
    anchor_hrefs E html = ok ++ bad :: rest ->
    (forall href, href ∈ ok ->
       exists u d, urljoin E starting_url href = Value u /\
                   netloc E u = Value d) ->
    urljoin E starting_url bad = Raises e ->
    get_links E html starting_url follow_external = Raises e /\
    fst (main E (S fuel) starting_url None depth follow_external delay
           phone email) = Raised e /\
    fetched (trace (snd (main E (S fuel) starting_url None depth
                           follow_external delay phone email)))
    = [starting_url].
Proof.
  intros E fuel starting_url html base_domain ok bad rest e depth
    follow_external delay phone email Hd Hget Hh Hb Hrefs Hok Hbad.
  assert (Hl : get_links E html starting_url follow_external = Raises e).
  { unfold get_links. rewrite Hb, Hrefs. cbn [mbind result_bind].
    now apply add_links_raises. }
  split; [exact Hl|].
  unfold main. rewrite crawl_enter by (try assumption; cbn; set_solver).
  unfold fetch_html, entered. rewrite Hget. cbn [visited_urls trace initial].
  rewrite Hh. cbn [negb]. unfold and_then.
  match goal with |- context [extract E ?u ?h ?p ?m None ?s2] =>
    destruct (quiet_extract E u h p m None s2) as (t & Hs & Ht);
    assert (Hf : fst (extract E u h p m None s2) = Returned)
  end.
  { unfold extract. rewrite and_then_assoc.
    match goal with |- context [and_then (and_then ?a ?b) ret ?s2] =>
      destruct (reports_return E starting_url html phone email s2)
        as (t' & _ & Hr)
    end.
    unfold and_then at 1. now rewrite Hr. }
  destruct (extract E starting_url html phone email None _) as [st s3].
  cbn [fst snd] in *. subst st s3. rewrite Hl.
  cbn [with_result fst snd trace]. rewrite !fetched_app, Ht.
  split; reflexivity.
Qed.

(** With a negative delay the loop over the links stops at once. *)
Lemma negative_delay_stops_the_loop (delay : Q) (visit : string -> step)
    (todo : list string) (s : state) :
  Qle_bool 0 delay = false ->
  for_each_link delay visit todo s
  = (match todo with [] => Returned | _ => Raised ValueError end, s).
Proof.
  intros Hneg. destruct todo as [|link rest]; [reflexivity|].
  cbn [for_each_link]. unfold and_then at 1, sleep. now rewrite Hneg.
Qed.

(** X12.  With a negative delay no link is ever followed: nothing but the
    starting URL is requested. *)
Theorem negative_delay_follows_no_link :
  forall (E : env) (fuel : nat) (starting_url : string)
         (search_string : option string) (depth : Z)
         (follow_external : bool) (delay : Q) (phone email : bool)
         (u : string),
    Qle_bool 0 delay = false ->
    u ∈ fetched (trace (snd (main E fuel starting_url search_string depth
                               follow_external delay phone email))) ->
    u = starting_url.
Proof.
  intros E fuel starting_url search_string depth follow_external delay phone
    email u Hneg. unfold main. destruct fuel as [|fuel]; [inversion 1|].
  destruct (decide (depth = 0 \/ starting_url ∈ visited_urls initial))
    as [Hskip|Hgo].
  - rewrite crawl_skip by exact Hskip. inversion 1.
  - rewrite crawl_enter by tauto. unfold fetch_html, entered.
    cbn [visited_urls trace initial app].
    assert (Hone : forall x : string, x ∈ [starting_url] -> x = starting_url)
      by (intros x Hx; now apply list_elem_of_singleton in Hx).
    destruct (requests_get E starting_url) as [html|msg];
      cbn [negb truthy snd trace fetched omap]; [|apply Hone].
    destruct (negb (truthy html)); [apply Hone|].
    unfold and_then.
    match goal with |- context [extract E ?u ?h ?p ?m ?ss ?s2] =>
      destruct (quiet_extract E u h p m ss s2) as (t & Hs & Ht)
    end.
    destruct (extract E starting_url html phone email search_string _)
      as [st s3].
    cbn [snd] in Hs. subst s3.
    assert (Hfin : forall o : status * state,
              snd o = State (∅ ∪ {[starting_url]})
                        ([Crawling starting_url; Get starting_url] ++ t) ->
              u ∈ fetched (trace (snd o)) -> u = starting_url).
    { intros o ->. cbn [trace]. rewrite fetched_app, Ht. apply Hone. }
    destruct st; try (apply Hfin; reflexivity).
    unfold with_result.
    destruct (get_links E html starting_url follow_external);
      try (apply Hfin; reflexivity).
    rewrite negative_delay_stops_the_loop by exact Hneg.
    apply Hfin. reflexivity.
Qed.

Lemma keeps_quiet (V : gset string) (a : step) :
  quiet a -> finishes a -> keeps V a.
Proof.
  intros Hq Hf s HV. split; [apply Hf|].
  destruct (Hq s) as (t & -> & _). exact HV.
Qed.

Lemma keeps_and_then (V : gset string) (a b : step) :
  keeps V a -> keeps V b -> keeps V (and_then a b).
Proof.
  intros Ha Hb s HV. unfold and_then. destruct (Ha s HV) as (Hf & HV').
  destruct (a s) as [[| | |] sa]; cbn [fst snd] in *;
    try (split; [discriminate | exact HV']).
  - now apply Hb.
  - congruence.
Qed.

Lemma keeps_with_result (V : gset string) {A} (r : result A)
    (k : A -> step) :
  (forall a, r = Value a -> keeps V (k a)) -> keeps V (with_result r k).
Proof.
  intros Hk s HV. unfold with_result.
  destruct r; [now apply Hk | split; [discriminate | exact HV]..].
Qed.

Lemma keeps_for_each_link (V : gset string) (delay : Q)
    (visit : string -> step) (todo : list string) :
  (forall link, link ∈ todo -> keeps V (visit link)) ->
  keeps V (for_each_link delay visit todo).
Proof.
  induction todo as [|link rest IH]; intros Hv; cbn [for_each_link].
  - apply keeps_quiet; [apply quiet_ret | apply finishes_ret].
  - apply keeps_and_then;
      [apply keeps_quiet; [apply quiet_sleep | apply finishes_sleep]|].
    apply keeps_and_then; [apply Hv; left|].
    apply IH. intros l Hl. apply Hv. now right.
Qed.

Lemma one_more_visited (site V : gset string) (url : string) :
  url ∈ site -> url ∉ V ->
  (size (site ∖ (V ∪ {[url]})) < size (site ∖ V))%nat.
Proof.
  intros Hs Hv. apply subset_size. set_solver.
Qed.

(** On a closed set of URLs a task ends once the fuel exceeds the number
    of its URLs not yet visited, whatever the depth limit. *)
Lemma crawl_ends_on_closed (E : env) (base_url : string)
    (follow_external : bool) (delay : Q) (phone email : bool)
    (site : gset string) :
  closed E base_url follow_external site ->
  forall (fuel : nat) (url : string) (depth : Z)
         (search_string : option string) (V : gset string),
    url ∈ site -> (size (site ∖ V) < fuel)%nat ->
    keeps V (crawl E fuel url base_url depth follow_external delay phone
               email search_string).
Proof.
  intros Hclosed.
  induction fuel as [|fuel IH]; intros url depth search_string V Hu Hfuel s HV;
    [lia|].
  assert (Hmono : V ⊆ visited_urls
                        (snd (crawl E (S fuel) url base_url depth
                                follow_external delay phone email
                                search_string s))).
  { destruct (crawl_sound E base_url follow_external delay phone email
                (S fuel) url depth search_string s) as (t & _ & Hsub & _).
    set_solver. }
  split; [|exact Hmono]. clear Hmono.
  destruct (decide (depth = 0 \/ url ∈ visited_urls s)) as [Hskip|Hgo].
  - rewrite crawl_skip by exact Hskip. discriminate.
  - rewrite crawl_enter by tauto. unfold fetch_html, entered.
    cbn [visited_urls trace].
    destruct (requests_get E url) as [html|msg] eqn:Hget;
      cbn [negb truthy fst]; [|discriminate].
    destruct (negb (truthy html)); [discriminate|].
    assert (Hsmall : (size (site ∖ (visited_urls s ∪ {[url]})) < fuel)%nat).
    { assert (size (site ∖ (visited_urls s ∪ {[url]}))
              < size (site ∖ visited_urls s))%nat
        by (apply one_more_visited; tauto).
      assert (size (site ∖ visited_urls s) <= size (site ∖ V))%nat
        by (apply subseteq_size; set_solver).
      lia. }
    refine (proj1 (keeps_and_then (visited_urls s ∪ {[url]}) _ _ _ _ _ _));
      [| |cbn [visited_urls]; set_solver].
    + apply keeps_quiet; [apply quiet_extract | apply finishes_extract].
    + apply keeps_with_result. intros links Hl.
      apply keeps_for_each_link. intros link Hlink. apply IH; [|exact Hsmall].
      apply (Hclosed url html links Hu Hget Hl).
      exact (proj1 (order_elem (set_order E) links link) Hlink).
Qed.

(** X13.  With a depth limit that is not negative the recursion is no deeper
    than the limit: a run given more fuel than [depth] returns or stops on
    an exception. *)
Theorem run_ends_within_the_depth :
  forall (E : env) (fuel : nat) (starting_url : string)
         (search_string : option string) (depth : Z)
         (follow_external : bool) (delay : Q) (phone email : bool),
    0 <= depth -> (Z.to_nat depth < fuel)%nat ->
    fst (main E fuel starting_url search_string depth follow_external delay
           phone email) <> OutOfFuel.
Proof.
  intros. unfold main. now apply crawl_finishes.
Qed.

(** X14.  Whatever the depth limit, negative ones included, a run over a
    finite set of URLs that holds the links of its pages ends: the
    recursion is no deeper than the number of these URLs, each being
    entered once. *)
Theorem run_ends_on_a_finite_site :
  forall (E : env) (site : gset string) (fuel : nat) (starting_url : string)
         (search_string : option string) (depth : Z)
         (follow_external : bool) (delay : Q) (phone email : bool),
    closed E starting_url follow_external site ->
    starting_url ∈ site -> (size site < fuel)%nat ->
    fst (main E fuel starting_url search_string depth follow_external delay
           phone email) <> OutOfFuel.
Proof.
  intros E site fuel starting_url search_string depth follow_external delay
    phone email Hclosed Hin Hfuel. unfold main.
  refine (proj1 (crawl_ends_on_closed E starting_url follow_external delay
                   phone email site Hclosed fuel starting_url depth
                   search_string ∅ Hin _ initial _)).
  - assert (size (site ∖ ∅) <= size site)%nat
      by (apply subseteq_size; set_solver). lia.
  - set_solver.
Qed.

Lemma current_cons (cur : option string) (e : event) (t : list event) :
  current cur (e :: t)
  = current (match e with Get u => Some u | _ => cur end) t.
Proof.
  unfold current. destruct e; try reflexivity.
  change (fetched (Get url :: t)) with (url :: fetched t).
  rewrite last_cons. now destruct (last (fetched t)).
Qed.

Lemma attributed_app (t1 t2 : list event) : forall cur,
  attributed cur (t1 ++ t2) <->
  attributed cur t1 /\ attributed (current cur t1) t2.
Proof.
  induction t1 as [|e t1 IH]; intros cur; cbn [app attributed].
  - unfold current. cbn. tauto.
  - rewrite IH, current_cons. tauto.
Qed.

Lemma attributed_report (pre post : list event) (e : event) (u : string) :
  forall cur,
    attributed cur (pre ++ e :: post) -> subject e = Some u ->
    current cur pre = Some u.
Proof.
  intros cur Ha He. apply attributed_app in Ha as (_ & Hu & _). now apply Hu.
Qed.

Lemma attributed_silent (t : list event) :
  Forall (fun e => subject e = None) t -> forall cur, attributed cur t.
Proof.
  induction 1 as [|e t He _ IH]; intros cur; cbn [attributed];
    [exact I|].
  split; [intros u Hu; congruence | apply IH].
Qed.

Lemma attributed_reports (url : string) (t : list event) :
  Forall (fun e => subject e = Some url) t -> attributed (Some url) t.
Proof.
  induction 1 as [|e t He _ IH]; cbn [attributed]; [exact I|].
  split; [intros u Hu; congruence|].
  destruct e; try exact IH; discriminate.
Qed.

Lemma current_reports (url : string) (t : list event) :
  Forall (fun e => subject e = Some url) t -> fetched t = [].
Proof.
  induction 1 as [|e t He _ IH]; [reflexivity|].
  destruct e; try exact IH; discriminate.
Qed.

Lemma placed_ret : placed ret.
Proof. intros s. exists []. now rewrite app_nil_r. Qed.

Lemma placed_and_then (a b : step) :
  placed a -> placed b -> placed (and_then a b).
Proof.
  intros Ha Hb s. unfold and_then. destruct (Ha s) as (ta & Hta & Hpa).
  destruct (a s) as [[| | |] sa]; cbn [snd] in *; try (now exists ta).
  destruct (Hb sa) as (tb & Htb & Hpb). exists (ta ++ tb).
  rewrite Htb, Hta, app_assoc. split; [reflexivity|].
  intros cur. apply attributed_app. auto.
Qed.

Lemma placed_with_result {A} (r : result A) (k : A -> step) :
  (forall a, placed (k a)) -> placed (with_result r k).
Proof.
  intros Hk s. unfold with_result.
  destruct r; [apply Hk | exists []; now rewrite app_nil_r..].
Qed.

Lemma placed_sleep (delay : Q) : placed (sleep delay).
Proof.
  unfold sleep. destruct (Qle_bool 0 delay).
  - intros s. exists [Sleep delay]. split; [reflexivity|].
    intros cur. cbn. split; [discriminate | exact I].
  - intros s. exists []. now rewrite app_nil_r.
Qed.

Lemma placed_for_each_link (delay : Q) (visit : string -> step)
    (todo : list string) :
  (forall link, placed (visit link)) ->
  placed (for_each_link delay visit todo).
Proof.
  intros Hv. induction todo as [|link rest IH]; cbn [for_each_link].
  - apply placed_ret.
  - apply placed_and_then; [apply placed_sleep|].
    apply placed_and_then; [apply Hv | exact IH].
Qed.

(** What the extractors report on a page, whichever are switched on. *)
Lemma emits_reports (E : env) (url html : string) (phone email : bool)
    (search_string : option string) (P : event -> Prop) :
  (phone = true -> forall l, l <> [] -> P (PhoneNumbers url l)) ->
  (email = true -> forall l, l <> [] -> P (EmailAddresses url l)) ->
  (forall l, l <> [] -> P (Strings url l)) ->
  emits P (extract E url html phone email search_string).
Proof.
  intros Hp He Hs.
  assert (Hne : forall {A} (l : list A), nonempty l = true -> l <> [])
    by (intros A [|x l]; discriminate).
  unfold extract, when, report_phone, report_email, report_strings.
  repeat apply emits_and_then.
  - destruct phone; [|apply emits_ret].
    apply emits_with_result. intros l.
    destruct (nonempty l); [|apply emits_ret].
    apply emits_with_result. intros l'.
    destruct (nonempty l') eqn:Hl; [|apply emits_ret].
    apply emits_emit, Hp; auto.
  - destruct email; [|apply emits_ret].
    apply emits_with_result. intros l.
    destruct (nonempty l) eqn:Hl; [|apply emits_ret].
    apply emits_emit, He; auto.
  - destruct search_string as [pat|]; [|apply emits_ret].
    destruct (truthy pat); [|apply emits_ret].
    apply emits_with_result. intros l.
    destruct (nonempty l) eqn:Hl; [|apply emits_ret].
    apply emits_emit, Hs; auto.
Qed.

Lemma crawl_placed (E : env) (base_url : string) (follow_external : bool)
    (delay : Q) (phone email : bool) (fuel : nat) :
  forall (url : string) (depth : Z) (search_string : option string),
    placed (crawl E fuel url base_url depth follow_external delay phone
              email search_string).
Proof.
  induction fuel as [|fuel IH]; intros url depth search_string s.
  - exists []. now rewrite app_nil_r.
  - destruct (decide (depth = 0 \/ url ∈ visited_urls s)) as [Hskip|Hgo].
    + rewrite crawl_skip by exact Hskip. exists []. now rewrite app_nil_r.
    + rewrite crawl_enter by tauto. unfold fetch_html, entered.
      cbn [visited_urls trace].
      destruct (requests_get E url) as [html|msg].
      * destruct (negb (truthy html)).
        -- exists [Crawling url; Get url]. cbn [snd trace].
           rewrite <- app_assoc. split; [reflexivity|].
           intros cur. apply attributed_silent. repeat constructor.
        -- unfold and_then.
           match goal with |- context [extract E url html ?p ?m ?ss ?s2] =>
             destruct (emits_reports E url html p m ss
                         (fun e => subject e = Some url)) with (s := s2)
               as (t1 & Ht1 & Hp1); try (intros; reflexivity);
             destruct (extract E url html p m ss s2) as [st s3]
           end.
           cbn [snd trace] in Ht1.
           assert (Hstop : exists t, trace s3 = trace s ++ t /\
                             forall cur, attributed cur t).
           { exists ([Crawling url; Get url] ++ t1). rewrite Ht1.
             rewrite <- !app_assoc. split; [reflexivity|].
             intros cur. cbn [app attributed].
             split; [discriminate|]. split; [discriminate|].
             now apply attributed_reports. }
           destruct st; try exact Hstop.
           destruct Hstop as (t & Ht & Hpt).
           match goal with |- context [with_result ?r ?k s3] =>
             destruct (placed_with_result r k) with (s := s3)
               as (t2 & Ht2 & Hp2)
           end.
           ++ intros links. apply placed_for_each_link. intros link.
              apply IH.
           ++ exists (t ++ t2). rewrite Ht2, Ht, app_assoc.
              split; [reflexivity|]. intros cur. apply attributed_app. auto.
      * exists [Crawling url; Get url; FailedToFetch url msg].
        cbn [snd trace negb truthy]. rewrite <- !app_assoc.
        split; [reflexivity|].
        intros cur. apply attributed_silent. repeat constructor.
Qed.

Lemma crawl_wanted (E : env) (base_url : string) (follow_external : bool)
    (delay : Q) (phone email : bool) (fuel : nat) :
  forall (url : string) (depth : Z) (search_string : option string),
    emits (wanted phone email)
      (crawl E fuel url base_url depth follow_external delay phone email
         search_string).
Proof.
  induction fuel as [|fuel IH]; intros url depth search_string s.
  - exists []. now rewrite app_nil_r.
  - destruct (decide (depth = 0 \/ url ∈ visited_urls s)) as [Hskip|Hgo].
    + rewrite crawl_skip by exact Hskip. exists []. now rewrite app_nil_r.
    + rewrite crawl_enter by tauto. unfold fetch_html, entered.
      cbn [visited_urls trace].
      destruct (requests_get E url) as [html|msg].
      * destruct (negb (truthy html)).
        -- exists [Crawling url; Get url]. cbn [snd trace].
           rewrite <- app_assoc. split; [reflexivity|].
           repeat constructor.
        -- match goal with |- context [and_then ?a ?b ?s2] =>
             destruct (emits_and_then (wanted phone email) a b)
               with (s := s2) as (t1 & Ht1 & Hp1)
           end.
           ++ apply emits_reports; cbn; auto.
           ++ apply emits_with_result. intros links.
              apply emits_for_each_link; [exact I | intros link; apply IH].
           ++ exists ([Crawling url; Get url] ++ t1). rewrite Ht1.
              cbn [trace]. rewrite <- !app_assoc. split; [reflexivity|].
              apply Forall_app. split; [repeat constructor | exact Hp1].
      * exists [Crawling url; Get url; FailedToFetch url msg].
        cbn [snd trace negb truthy]. rewrite <- !app_assoc.
        split; [reflexivity|]. repeat constructor.
Qed.

(** X16.  Every report of a run is about the page requested last before it:
    findings are never put down to another page. *)
Theorem reports_name_the_page_just_requested :
  forall (E : env) (fuel : nat) (starting_url : string)
         (search_string : option string) (depth : Z)
         (follow_external : bool) (delay : Q) (phone email : bool)
         (pre post : list event) (e : event) (u : string),
    trace (snd (main E fuel starting_url search_string depth follow_external
                  delay phone email))
    = pre ++ e :: post ->
    subject e = Some u ->
    last (fetched pre) = Some u.
Proof.
  intros E fuel starting_url search_string depth follow_external delay phone
    email pre post e u Ht He. unfold main in Ht.
  destruct (crawl_placed E starting_url follow_external delay phone email
              fuel starting_url depth search_string initial)
    as (t & Ht' & Hp).
  rewrite Ht in Ht'. cbn [initial trace app] in Ht'. subst t.
  specialize (attributed_report pre post e u None (Hp None) He).
  unfold current. now destruct (last (fetched pre)).
Qed.

(** X17.  A run reports phone numbers only with [phone] set and email
    addresses only with [email] set, and no report is empty. *)
Theorem only_findings_asked_for_are_reported :
  forall (E : env) (fuel : nat) (starting_url : string)
         (search_string : option string) (depth : Z)
         (follow_external : bool) (delay : Q) (phone email : bool),
    Forall (wanted phone email)
      (trace (snd (main E fuel starting_url search_string depth
                     follow_external delay phone email))).
Proof.
  intros. unfold main.
  destruct (crawl_wanted E starting_url follow_external delay phone email
              fuel starting_url depth search_string initial)
    as (t & -> & Hp).
  exact Hp.
Qed.

(** *** The iteration order *)

Lemma shortcut_run_sorted :
  fetched (trace (snd (main (Lib.world Scenario.shortcut_site
                               sorted_iteration) 5 Scenario.seed None 3
                         false 1 false false)))
  = [Scenario.seed; Scenario.pa; Scenario.pb].
Proof. vm_compute. reflexivity. Qed.

Lemma shortcut_two_hops :
  hops (Lib.world Scenario.shortcut_site sorted_iteration) Scenario.seed
    false 2 Scenario.seed Scenario.pc.
Proof.
  apply (hops_next _ _ _ 1 Scenario.seed Scenario.pb Scenario.pc
           "<a href='https://a.com/a'>a</a> <a href='https://a.com/b'>b</a>"
           {[ Scenario.pa; Scenario.pb ]});
    [reflexivity | reflexivity | vm_compute; reflexivity | set_solver |].
  apply (hops_next _ _ _ 0 Scenario.pb Scenario.pc Scenario.pc
           "<a href='https://a.com/c'>c</a>" {[ Scenario.pc ]});
    [reflexivity | reflexivity | vm_compute; reflexivity | set_solver |].
  constructor.
Qed.

(** X18.  A page within the depth limit can be missed, and which pages are
    requested depends on the order in which the set of links is iterated.
    On the site seed -> a, b; a -> b; b -> c with depth 3, the page c lies
    two links from the seed; when a is visited before b, the page b is
    requested with one level left and c is never requested; in the other
    order c is requested. *)
Theorem pages_within_the_depth_can_be_missed :
  (hops (Lib.world Scenario.shortcut_site sorted_iteration) Scenario.seed
     false 2 Scenario.seed Scenario.pc /\
   fetched (trace (snd (main (Lib.world Scenario.shortcut_site
                                sorted_iteration) 5 Scenario.seed None 3
                          false 1 false false)))
   = [Scenario.seed; Scenario.pa; Scenario.pb] /\
   fetched (trace (snd (main (Lib.world Scenario.shortcut_site
                                (reversed sorted_iteration)) 5 Scenario.seed
                          None 3 false 1 false false)))
   = [Scenario.seed; Scenario.pb; Scenario.pc; Scenario.pa]) /\
  ~ (forall (E : env) (fuel : nat) (starting_url : string) (depth : Z)
            (follow_external : bool) (delay : Q) (u : string) (k : nat),
       0 <= depth -> Z.of_nat k < depth -> (Z.to_nat depth < fuel)%nat ->
       hops E starting_url follow_external k starting_url u ->
       u ∈ fetched (trace (snd (main E fuel starting_url None depth
                                  follow_external delay false false)))).
Proof.
  split.
  - split; [exact shortcut_two_hops|].
    split; [exact shortcut_run_sorted | vm_compute; reflexivity].
  - intros Hall.
    specialize (Hall (Lib.world Scenario.shortcut_site sorted_iteration)
                  5%nat Scenario.seed 3 false 1%Q Scenario.pc 2%nat
                  ltac:(lia) ltac:(lia) ltac:(cbn; lia) shortcut_two_hops).
    rewrite shortcut_run_sorted in Hall.
    repeat (apply elem_of_cons in Hall as [Heq | Hall];
            [discriminate Heq|]).
    inversion Hall.
Qed.

(** *** The properties at work on the scenarios *)

Lemma requests_follow_links_witness :
  Scenario.p1 ∈
    fetched (trace (snd (main (Lib.world Scenario.site sorted_iteration) 5
                           Scenario.seed None (-1) false 1 false false))) /\
  exists k : nat,
    hops (Lib.world Scenario.site sorted_iteration) Scenario.seed false k
      Scenario.seed Scenario.p1.
Proof.
  assert (Hin : Scenario.p1 ∈
    fetched (trace (snd (main (Lib.world Scenario.site sorted_iteration) 5
                           Scenario.seed None (-1) false 1 false false)))).
  { vm_compute. right. left. }
  split; [exact Hin|].
  exact (requests_follow_links (Lib.world Scenario.site sorted_iteration) 5
           Scenario.seed None (-1) false 1 false false Scenario.p1 Hin).
Defined.

Lemma stays_on_host_witness :
  "https://a.com/y" ∈
    fetched (trace (snd (main (Lib.world
                                 [(Scenario.seed, Scenario.mixed_page)]
                                 sorted_iteration) 5
                           Scenario.seed None 2 false 1 false false))) /\
  ("https://a.com/y" = Scenario.seed \/
   same_host (Lib.world [(Scenario.seed, Scenario.mixed_page)]
                sorted_iteration) Scenario.seed "https://a.com/y").
Proof.
  assert (Hin : "https://a.com/y" ∈
    fetched (trace (snd (main (Lib.world
                                 [(Scenario.seed, Scenario.mixed_page)]
                                 sorted_iteration) 5
                           Scenario.seed None 2 false 1 false false)))).
  { vm_compute. right. left. }
  split; [exact Hin|].
  exact (stays_on_host (Lib.world [(Scenario.seed, Scenario.mixed_page)]
                          sorted_iteration) 5 Scenario.seed None 2 1 false
           false "https://a.com/y" Hin).
Defined.

Lemma second_crawl_does_nothing_witness :
  2 <> 0 /\
  crawl (Lib.world Scenario.site sorted_iteration) 3 Scenario.p1
    Scenario.p2 5 true 0 true true (Some "needle")
    (snd (crawl (Lib.world Scenario.site sorted_iteration) 3 Scenario.p1
            Scenario.seed 2 false 1 false false None initial))
  = (Returned,
     snd (crawl (Lib.world Scenario.site sorted_iteration) 3 Scenario.p1
            Scenario.seed 2 false 1 false false None initial)).
Proof.
  assert (Hd : 2 <> 0) by lia.
  split; [exact Hd|].
  exact (second_crawl_does_nothing (Lib.world Scenario.site sorted_iteration)
           2 2 Scenario.p1 Scenario.seed Scenario.p2 2 5 false true 1 0
           false false true true None (Some "needle") initial Hd).
Defined.

Lemma delay_before_every_other_page_witness :
  trace (snd (main (Lib.world Scenario.site sorted_iteration) 5
                Scenario.seed None 2 false 1 false false))
  = [Crawling Scenario.seed; Get Scenario.seed]
    ++ Sleep 1 :: Crawling Scenario.p1
       :: [Get Scenario.p1; Sleep 1; Sleep 1; Crawling Scenario.p2;
           Get Scenario.p2; Sleep 1] /\
  Sleep 1 = Sleep 1.
Proof.
  assert (Ht : trace (snd (main (Lib.world Scenario.site sorted_iteration) 5
                             Scenario.seed None 2 false 1 false false))
               = [Crawling Scenario.seed; Get Scenario.seed]
                 ++ Sleep 1 :: Crawling Scenario.p1
                    :: [Get Scenario.p1; Sleep 1; Sleep 1;
                        Crawling Scenario.p2; Get Scenario.p2; Sleep 1])
    by (vm_compute; reflexivity).
  split; [exact Ht|].
  exact (delay_before_every_other_page
           (Lib.world Scenario.site sorted_iteration) 5 Scenario.seed None 2
           false 1 false false _ _ _ _ Ht).
Defined.

Lemma bad_pattern_raises_after_the_first_request_witness :
  2 <> 0 /\
  requests_get (Lib.world Scenario.site sorted_iteration) Scenario.seed
  = Body Scenario.seed_page /\
  truthy Scenario.seed_page = true /\ truthy "(" = true /\
  Re.compile (Re.Flags true false) "(" = Re.ReError /\
  fst (main (Lib.world Scenario.site sorted_iteration) 3 Scenario.seed
         (Some "(") 2 false 1 true true) = Raised re_error /\
  fetched (trace (snd (main (Lib.world Scenario.site sorted_iteration) 3
                         Scenario.seed (Some "(") 2 false 1 true true)))
  = [Scenario.seed] /\
  visited_urls (snd (main (Lib.world Scenario.site sorted_iteration) 3
                       Scenario.seed (Some "(") 2 false 1 true true))
  = {[Scenario.seed]}.
Proof.
  assert (Hd : 2 <> 0) by lia.
  assert (Hget : requests_get (Lib.world Scenario.site sorted_iteration)
                   Scenario.seed = Body Scenario.seed_page) by reflexivity.
  assert (Hh : truthy Scenario.seed_page = true) by reflexivity.
  assert (Hp : truthy "(" = true) by reflexivity.
  assert (Hc : Re.compile (Re.Flags true false) "(" = Re.ReError)
    by reflexivity.
  split; [exact Hd|]. split; [exact Hget|]. split; [exact Hh|].
  split; [exact Hp|]. split; [exact Hc|].
  exact (bad_pattern_raises_after_the_first_request
           (Lib.world Scenario.site sorted_iteration) 2 Scenario.seed "("
           Scenario.seed_page 2 false 1 true true Hd Hget Hh Hp Hc).
Defined.

Lemma unresolvable_link_stops_the_run_witness :
  2 <> 0 /\
  requests_get Scenario.bracket_world Scenario.seed
  = Body Scenario.bracket_page /\
  truthy Scenario.bracket_page = true /\
  netloc Scenario.bracket_world Scenario.seed = Value "a.com" /\
  anchor_hrefs Scenario.bracket_world Scenario.bracket_page
  = [Scenario.p1] ++ "//[" :: [] /\
  (forall href, href ∈ [Scenario.p1] ->
     exists u d, urljoin Scenario.bracket_world Scenario.seed href = Value u /\
                 netloc Scenario.bracket_world u = Value d) /\
  urljoin Scenario.bracket_world Scenario.seed "//[" = Raises ValueError /\
  get_links Scenario.bracket_world Scenario.bracket_page Scenario.seed false
  = Raises ValueError /\
  fst (main Scenario.bracket_world 3 Scenario.seed None 2 false 1 false
         false) = Raised ValueError /\
  fetched (trace (snd (main Scenario.bracket_world 3 Scenario.seed None 2
                         false 1 false false)))
  = [Scenario.seed].
Proof.
  assert (Hd : 2 <> 0) by lia.
  assert (Hget : requests_get Scenario.bracket_world Scenario.seed
                 = Body Scenario.bracket_page) by reflexivity.
  assert (Hh : truthy Scenario.bracket_page = true) by reflexivity.
  assert (Hb : netloc Scenario.bracket_world Scenario.seed = Value "a.com")
    by (vm_compute; reflexivity).
  assert (Hrefs : anchor_hrefs Scenario.bracket_world Scenario.bracket_page
                  = [Scenario.p1] ++ "//[" :: [])
    by (vm_compute; reflexivity).
  assert (Hok : forall href, href ∈ [Scenario.p1] ->
            exists u d,
              urljoin Scenario.bracket_world Scenario.seed href = Value u /\
              netloc Scenario.bracket_world u = Value d).
  { intros href Hin. apply list_elem_of_singleton in Hin as ->.
    exists Scenario.p1, "a.com". split; vm_compute; reflexivity. }
  assert (Hbad : urljoin Scenario.bracket_world Scenario.seed "//["
                 = Raises ValueError) by (vm_compute; reflexivity).
  split; [exact Hd|]. split; [exact Hget|]. split; [exact Hh|].
  split; [exact Hb|]. split; [exact Hrefs|]. split; [exact Hok|].
  split; [exact Hbad|].
  exact (unresolvable_link_stops_the_run Scenario.bracket_world 2
           Scenario.seed Scenario.bracket_page "a.com" [Scenario.p1] "//["
           [] ValueError 2 false 1 false false Hd Hget Hh Hb Hrefs Hok Hbad).
Defined.

Lemma negative_delay_follows_no_link_witness :
  Qle_bool 0 (-1) = false /\
  Scenario.seed ∈
    fetched (trace (snd (main (Lib.world Scenario.site sorted_iteration) 5
                           Scenario.seed None 2 false (-1) false false))) /\
  Scenario.seed = Scenario.seed.
Proof.
  assert (Hneg : Qle_bool 0 (-1) = false) by reflexivity.
  assert (Hin : Scenario.seed ∈
    fetched (trace (snd (main (Lib.world Scenario.site sorted_iteration) 5
                           Scenario.seed None 2 false (-1) false false)))).
  { vm_compute. left. }
  split; [exact Hneg|]. split; [exact Hin|].
  exact (negative_delay_follows_no_link
           (Lib.world Scenario.site sorted_iteration) 5 Scenario.seed None 2
           false (-1) false false Scenario.seed Hneg Hin).
Defined.

Lemma run_ends_within_the_depth_witness :
  0 <= 2 /\ (Z.to_nat 2 < 3)%nat /\
  fst (main (Lib.world Scenario.site sorted_iteration) 3 Scenario.seed None
         2 false 1 false false) <> OutOfFuel.
Proof.
  assert (Hpos : 0 <= 2) by lia.
  assert (Hfuel : (Z.to_nat 2 < 3)%nat) by lia.
  split; [exact Hpos|]. split; [exact Hfuel|].
  exact (run_ends_within_the_depth (Lib.world Scenario.site sorted_iteration)
           3 Scenario.seed None 2 false 1 false false Hpos Hfuel).
Defined.

Lemma run_ends_on_a_finite_site_witness :
  closed (Lib.world Scenario.site sorted_iteration) Scenario.seed false
    {[ Scenario.seed; Scenario.p1; Scenario.p2; "https://a.com/q1";
       "https://a.com/q2" ]} /\
  Scenario.seed ∈ ({[ Scenario.seed; Scenario.p1; Scenario.p2;
                      "https://a.com/q1"; "https://a.com/q2" ]}
                   : gset string) /\
  (size ({[ Scenario.seed; Scenario.p1; Scenario.p2; "https://a.com/q1";
            "https://a.com/q2" ]} : gset string) < 6)%nat /\
  fst (main (Lib.world Scenario.site sorted_iteration) 6 Scenario.seed None
         (-1) false 1 false false) <> OutOfFuel.
Proof.
  assert (Hclosed :
    closed (Lib.world Scenario.site sorted_iteration) Scenario.seed false
      {[ Scenario.seed; Scenario.p1; Scenario.p2; "https://a.com/q1";
         "https://a.com/q2" ]}).
  { intros u html links Hu Hget Hl.
    assert (Hcases : u = Scenario.seed \/ u = Scenario.p1 \/
                     u = Scenario.p2 \/ u = "https://a.com/q1" \/
                     u = "https://a.com/q2") by set_solver.
    clear Hu.
    assert (Hval : forall l : gset string,
              get_links (Lib.world Scenario.site sorted_iteration) html
                Scenario.seed false = Value l -> links = l)
      by (intros l Hl'; congruence).
    destruct Hcases as [-> | [-> | [-> | [-> | ->]]]];
      injection Hget as <-.
    - rewrite (Hval {[ Scenario.p1; Scenario.p2 ]});
        [set_solver | vm_compute; reflexivity].
    - rewrite (Hval {[ "https://a.com/q1" ]});
        [set_solver | vm_compute; reflexivity].
    - rewrite (Hval {[ "https://a.com/q2" ]});
        [set_solver | vm_compute; reflexivity].
    - rewrite (Hval ∅); [set_solver | vm_compute; reflexivity].
    - rewrite (Hval ∅); [set_solver | vm_compute; reflexivity]. }
  assert (Hin : Scenario.seed ∈ ({[ Scenario.seed; Scenario.p1; Scenario.p2;
                                    "https://a.com/q1"; "https://a.com/q2" ]}
                                 : gset string)) by set_solver.
  assert (Hsize : (size ({[ Scenario.seed; Scenario.p1; Scenario.p2;
                            "https://a.com/q1"; "https://a.com/q2" ]}
                         : gset string) < 6)%nat)
    by (vm_compute; lia).
  split; [exact Hclosed|]. split; [exact Hin|]. split; [exact Hsize|].
  exact (run_ends_on_a_finite_site (Lib.world Scenario.site sorted_iteration)
           _ 6 Scenario.seed None (-1) false 1 false false Hclosed Hin
           Hsize).
Defined.

Lemma reports_name_the_page_just_requested_witness :
  trace (snd (main (Lib.world [(Scenario.seed, Scenario.contact_page)]
                      sorted_iteration) 5 Scenario.seed (Some "CALL") 2
                false 1 true true))
  = [Crawling Scenario.seed; Get Scenario.seed]
    ++ PhoneNumbers Scenario.seed ["555-123-4567"]
       :: [EmailAddresses Scenario.seed ["bob@example.com"];
           Strings Scenario.seed [Re.FStr "call"]] /\
  subject (PhoneNumbers Scenario.seed ["555-123-4567"])
  = Some Scenario.seed /\
  last (fetched [Crawling Scenario.seed; Get Scenario.seed])
  = Some Scenario.seed.
Proof.
  assert (Ht : trace (snd (main (Lib.world
                                   [(Scenario.seed, Scenario.contact_page)]
                                   sorted_iteration) 5 Scenario.seed
                             (Some "CALL") 2 false 1 true true))
               = [Crawling Scenario.seed; Get Scenario.seed]
                 ++ PhoneNumbers Scenario.seed ["555-123-4567"]
                    :: [EmailAddresses Scenario.seed ["bob@example.com"];
                        Strings Scenario.seed [Re.FStr "call"]])
    by (vm_compute; reflexivity).
  assert (He : subject (PhoneNumbers Scenario.seed ["555-123-4567"])
               = Some Scenario.seed) by reflexivity.
  split; [exact Ht|]. split; [exact He|].
  exact (reports_name_the_page_just_requested
           (Lib.world [(Scenario.seed, Scenario.contact_page)]
              sorted_iteration) 5 Scenario.seed (Some "CALL") 2 false 1 true
           true _ _ _ _ Ht He).
Defined.

End Runs.
